(** * code-explainer: the exploration state engine

    A shallow embedding of [code_explainer/topics.py] (the persisted topic
    queue and the parser of generated text) and of the two context helpers
    of [code_explainer/git_utils.py] ([extract_symbol] and
    [get_repo_structure]), with the properties of the design document
    stated and settled against them.

    Conventions.
    - A Python [str] is a sequence of Unicode code points: [list N].
    - A function that can raise returns an [outcome]; a function that
      touches the queue file takes the file's state and returns the new one.
    - The value [json.load] returns is a [pyval].  Numbers with a fraction or
      an exponent (Python floats) are left out of [pyval]. *)

From Stdlib Require Import ZArith NArith Lia Strings.String Strings.Ascii.
From stdpp Require Import base tactics option list numbers countable gmap sorting.

Set Default Proof Using "Type".
Set Warnings "-register-all".
Local Open Scope Z_scope.

(* ===================================================================== *)
(** ** Python strings *)
(* ===================================================================== *)

Module Py.

Definition char := N.
Definition str := list char.

(** A literal of the source, as code points (the literals written this way
    are ASCII; other characters are given by number). *)
Fixpoint str_of (s : string) : str :=
  match s with
  | EmptyString => []
  | String a s' => N_of_ascii a :: str_of s'
  end.

Definition NL : char := 10%N.

(** [str.isspace] on one character, which is also what [\s] matches in a
    [str] pattern: the code points Python's Unicode database marks as
    whitespace. *)
Definition isspace (c : char) : bool :=
  ((9 <=? c) && (c <=? 13) || (28 <=? c) && (c <=? 32)
   || (c =? 133) || (c =? 160) || (c =? 5760)
   || (8192 <=? c) && (c <=? 8202)
   || (c =? 8232) || (c =? 8233) || (c =? 8239) || (c =? 8287)
   || (c =? 12288))%N.

(** [s.lstrip()], [s.rstrip()], [s.strip()] *)
Fixpoint lstrip (s : str) : str :=
  match s with
  | c :: s' => if isspace c then lstrip s' else s
  | [] => []
  end.

Definition rstrip (s : str) : str := rev (lstrip (rev s)).
Definition strip (s : str) : str := rstrip (lstrip s).

(** [s.startswith(p)] *)
Fixpoint startswith (p s : str) : bool :=
  match p, s with
  | [], _ => true
  | a :: p', b :: s' => (a =? b)%N && startswith p' s'
  | _ :: _, [] => false
  end.

(** [s.endswith(p)] *)
Definition endswith (p s : str) : bool := startswith (rev p) (rev s).

(** [s.split("\n")]: never empty, one more piece than there are line
    breaks. *)
Fixpoint split_lines (s : str) : list str :=
  match s with
  | [] => [[]]
  | c :: s' =>
      if (c =? NL)%N then [] :: split_lines s'
      else match split_lines s' with
           | l :: ls => (c :: l) :: ls
           | [] => [[c]]
           end
  end.

(** ["\n".join(ls)] *)
Fixpoint join_lines (ls : list str) : str :=
  match ls with
  | [] => []
  | [l] => l
  | l :: ls' => l ++ NL :: join_lines ls'
  end.

(** What a call does: it returns, or it raises. *)
Inductive exn := ValueError | TypeError.

Inductive outcome (A : Type) :=
| Ok (a : A)
| Raise (e : exn).
Arguments Ok {A} a.
Arguments Raise {A} e.

#[global] Instance outcome_ret : MRet outcome := fun A a => Ok a.
#[global] Instance outcome_bind : MBind outcome := fun A B f m =>
  match m with
  | Ok a => f a
  | Raise e => Raise e
  end.

(** A list comprehension whose element expression can raise, the element's
    position at hand: the first failure ends it. *)
Fixpoint comprehension {A B} (f : nat -> A -> outcome B) (i : nat) (l : list A)
  : outcome (list B) :=
  match l with
  | [] => Ok []
  | a :: l' =>
      b ← f i a;
      bs ← comprehension f (S i) l';
      Ok (b :: bs)
  end.

End Py.

(* ===================================================================== *)
(** ** topics.py: the data model and the persisted queue *)
(* ===================================================================== *)

Module Topics.
Import Py.

(** The values [json.load] produces and [json.dump] accepts.  A decoded
    object keeps its keys in the order of the text; its keys are distinct. *)
Inductive pyval :=
| PNone
| PBool (b : bool)
| PInt (z : Z)
| PStr (s : str)
| PList (l : list pyval)
| PDict (kvs : list (str * pyval)).

(** [a == "literal"] for a [str] literal: no value of another type equals
    a string. *)
Definition eq_str (v : pyval) (lit : str) : bool :=
  match v with
  | PStr s => bool_decide (s = lit)
  | _ => false
  end.

(** What a [set] compares its members by: [hash] and [==].  [True == 1] and
    [False == 0]; lists and dicts are unhashable. *)
Inductive hkey := KNone | KNum (z : Z) | KStr (s : str).

#[global] Instance hkey_eq_dec : EqDecision hkey.
Proof. solve_decision. Defined.

#[global] Instance hkey_countable : Countable hkey :=
  inj_countable'
    (fun k => match k with
              | KNone => inl (inl ())
              | KNum z => inl (inr z)
              | KStr s => inr s
              end)
    (fun x => match x with
              | inl (inl _) => KNone
              | inl (inr z) => KNum z
              | inr s => KStr s
              end)
    (fun k => match k with KNone => eq_refl | KNum _ => eq_refl | KStr _ => eq_refl end).

Definition hash_key (v : pyval) : outcome hkey :=
  match v with
  | PNone => Ok KNone
  | PBool b => Ok (KNum (if b then 1 else 0))
  | PInt z => Ok (KNum z)
  | PStr s => Ok (KStr s)
  | PList _ | PDict _ => Raise TypeError
  end.

(** [for item in data]: the items a value yields when iterated. *)
Definition py_iter (data : pyval) : outcome (list pyval) :=
  match data with
  | PList l => Ok l
  | PDict kvs => Ok (map (fun kv => PStr kv.1) kvs)
  | PStr s => Ok (map (fun c => PStr [c]) s)
  | PNone | PBool _ | PInt _ => Raise TypeError
  end.

(** [@dataclass class Topic].  The annotations say [str]; nothing checks
    them, and [load_queue] stores whatever the file holds. *)
Record Topic := mkTopic {
  title : pyval;
  kind : pyval;
  target : pyval;
  source : pyval;
  status : pyval;
  added : pyval;
}.

Definition f_title : str := str_of "title".
Definition f_kind : str := str_of "kind".
Definition f_target : str := str_of "target".
Definition f_source : str := str_of "source".
Definition f_status : str := str_of "status".
Definition f_added : str := str_of "added".

Definition field_names : list str :=
  [f_title; f_kind; f_target; f_source; f_status; f_added].

Definition s_pending : str := str_of "pending".
Definition s_done : str := str_of "done".
Definition s_skipped : str := str_of "skipped".

(** Keyword arguments, and the value passed for one name. *)
Definition kwargs := list (str * pyval).

Fixpoint kw_get (k : str) (kw : kwargs) : option pyval :=
  match kw with
  | [] => None
  | (k', v) :: kw' => if bool_decide (k' = k) then Some v else kw_get k kw'
  end.

(** [Topic] called with the keywords of [item]: [item] must be a mapping; a
    keyword that is not a field and a missing [title], [kind] or [target]
    are a [TypeError]; [source], [status] and [added] have defaults, the last
    one read from the clock. *)
Definition Topic_init (now : str) (item : pyval) : outcome Topic :=
  match item with
  | PDict kw =>
      if forallb (fun kv => bool_decide (kv.1 ∈ field_names)) kw then
        match kw_get f_title kw, kw_get f_kind kw, kw_get f_target kw with
        | Some t, Some k, Some g =>
            Ok {| title := t; kind := k; target := g;
                  source := default (PStr []) (kw_get f_source kw);
                  status := default (PStr s_pending) (kw_get f_status kw);
                  added := default (PStr now) (kw_get f_added kw) |}
        | _, _, _ => Raise TypeError
        end
      else Raise TypeError
  | _ => Raise TypeError
  end.

(** [dataclasses.asdict] *)
Definition asdict (t : Topic) : pyval :=
  PDict [(f_title, title t); (f_kind, kind t); (f_target, target t);
         (f_source, source t); (f_status, status t); (f_added, added t)].

(** The queue file [<output_dir>/topics.json]: not there (or not a regular
    file), there with text [json.load] rejects, or there with a JSON
    document. *)
Inductive file :=
| Absent
| Garbled
| Holds (doc : pyval).

(** [datetime.now().isoformat(timespec="seconds")] at the construction of
    the Topic for the [i]-th item. *)
Definition clock := nat -> str.

Definition load_queue (now : clock) (fs : file) : outcome (list Topic) :=
  match fs with
  | Absent => Ok []
  | Garbled => Raise ValueError
  | Holds data =>
      items ← py_iter data;
      comprehension (fun i item => Topic_init (now i) item) 0 items
  end.

Definition save_queue (queue : list Topic) : file :=
  Holds (PList (map asdict queue)).

Definition set_status (s : str) (t : Topic) : Topic :=
  {| title := title t; kind := kind t; target := target t;
     source := source t; status := PStr s; added := added t |}.

Definition is_pending (t : Topic) : bool := eq_str (status t) s_pending.

(** [{t.target for t in queue}] *)
Fixpoint target_set (queue : list Topic) : outcome (gset hkey) :=
  match queue with
  | [] => Ok ∅
  | t :: queue' =>
      k ← hash_key (target t);
      s ← target_set queue';
      Ok ({[k]} ∪ s)
  end.

(** The loop of [add_topics]: the queue, the set of targets and the counter
    as they are after the remaining [topics]. *)
Fixpoint add_loop (topics queue : list Topic) (existing_targets : gset hkey)
    (added_n : nat) : outcome (list Topic * nat) :=
  match topics with
  | [] => Ok (queue, added_n)
  | topic :: topics' =>
      k ← hash_key (target topic);
      if bool_decide (k ∉ existing_targets)
      then add_loop topics' (queue ++ [topic]) ({[k]} ∪ existing_targets) (S added_n)
      else add_loop topics' queue existing_targets added_n
  end.

Definition add_topics (now : clock) (fs : file) (topics : list Topic)
  : outcome (nat * file) :=
  queue ← load_queue now fs;
  existing_targets ← target_set queue;
  r ← add_loop topics queue existing_targets 0;
  if bool_decide (r.2 ≠ 0%nat) then Ok (r.2, save_queue r.1) else Ok (r.2, fs).

(** The loop of [pop_next]: the first pending topic, marked, and the queue
    with it marked in place. *)
Fixpoint pop_loop (queue : list Topic) : option (Topic * list Topic) :=
  match queue with
  | [] => None
  | topic :: queue' =>
      if is_pending topic
      then Some (set_status s_done topic, set_status s_done topic :: queue')
      else prod_map id (cons topic) <$> pop_loop queue'
  end.

Definition pop_next (now : clock) (fs : file) : outcome (option Topic * file) :=
  queue ← load_queue now fs;
  match pop_loop queue with
  | Some (topic, queue') => Ok (Some topic, save_queue queue')
  | None => Ok (None, fs)
  end.

(** [[i for i, t in enumerate(queue) if t.status == "pending"]] *)
Fixpoint pending_from (i : nat) (queue : list Topic) : list nat :=
  match queue with
  | [] => []
  | t :: queue' =>
      if is_pending t then i :: pending_from (S i) queue'
      else pending_from (S i) queue'
  end.

Definition skip_topic (now : clock) (fs : file) (index : Z)
  : outcome (bool * file) :=
  queue ← load_queue now fs;
  let pending := pending_from 0 queue in
  if bool_decide (index < 0 ∨ index >= Z.of_nat (length pending))
  then Ok (false, fs)
  else
    match pending !! Z.to_nat index with
    | Some p => Ok (true, save_queue (alter (set_status s_skipped) p queue))
    | None => Ok (false, fs)
    end.

Definition pending_count (now : clock) (fs : file) : outcome nat :=
  queue ← load_queue now fs;
  Ok (length (filter (fun t => is_pending t = true) queue)).

End Topics.

(* ===================================================================== *)
(** ** The regular expressions of topics.py *)
(* ===================================================================== *)

(** The part of [re] the two patterns of topics.py use, matched the way
    [re] matches: by backtracking, alternatives left to right, a greedy
    repetition longest first and a lazy one shortest first.  Every
    repetition in the two patterns is over a single character class. *)
Module Re.
Import Py.

Inductive re :=
| Eps
| Chr (p : char -> bool)
| Rep (greedy : bool) (lo : nat) (p : char -> bool)
| Seq (r1 r2 : re)
| Alt (r1 r2 : re)
| Group (n : nat) (r : re)
| Ahead (r : re)
| Bol
| Eol
| EndZ.

(** Where a match attempt stands: whether it is at the start of a line (the
    start of the text, or just after a line break), the text still ahead,
    and the groups closed so far, the latest first. *)
Record mstate := mkState {
  bol : bool;
  rest : str;
  caps : list (nat * str);
}.


Fixpoint group (n : nat) (cs : list (nat * str)) : str :=
  match cs with
  | [] => []
  | (m, s) :: cs' => if bool_decide (m = n) then s else group n cs'
  end.

Section Run.
Context {R : Type}.

Fixpoint rep_greedy (p : char -> bool) (lo : nat) (b : bool) (s : str)
    (k : bool -> str -> option R) : option R :=
  let stop := match lo with O => k b s | S _ => None end in
  match s with
  | c :: s' =>
      if p c then
        match rep_greedy p (pred lo) (c =? NL)%N s' k with
        | Some x => Some x
        | None => stop
        end
      else stop
  | [] => stop
  end.

Fixpoint rep_lazy (p : char -> bool) (lo : nat) (b : bool) (s : str)
    (k : bool -> str -> option R) : option R :=
  let go := match s with
            | c :: s' => if p c then rep_lazy p (pred lo) (c =? NL)%N s' k else None
            | [] => None
            end in
  match lo with
  | O => match k b s with
         | Some x => Some x
         | None => go
         end
  | S _ => go
  end.

End Run.

Fixpoint run (r : re) {R : Type} (st : mstate) (k : mstate -> option R)
    {struct r} : option R :=
  match r with
  | Eps => k st
  | Chr p =>
      match rest st with
      | c :: s' =>
          if p c then k {| bol := (c =? NL)%N; rest := s'; caps := caps st |}
          else None
      | [] => None
      end
  | Rep greedy lo p =>
      (if greedy then rep_greedy else rep_lazy) p lo (bol st) (rest st)
        (fun b s' => k {| bol := b; rest := s'; caps := caps st |})
  | Seq r1 r2 => run r1 st (fun st' => run r2 st' k)
  | Alt r1 r2 =>
      match run r1 st k with
      | Some x => Some x
      | None => run r2 st k
      end
  | Group n r1 =>
      run r1 st (fun st' =>
        k {| bol := bol st'; rest := rest st';
             caps := (n, take (length (rest st) - length (rest st')) (rest st))
                       :: caps st' |})
  | Ahead r1 =>
      match run r1 st Some with
      | Some st' => k {| bol := bol st; rest := rest st; caps := caps st' |}
      | None => None
      end
  | Bol => if bol st then k st else None
  | Eol =>
      match rest st with
      | [] => k st
      | c :: _ => if (c =? NL)%N then k st else None
      end
  | EndZ =>
      match rest st with
      | [] => k st
      | _ :: _ => None
      end
  end.

Definition seq (rs : list re) : re := foldr Seq Eps rs.

(** [pattern.match] at one position. *)
Definition match_at (r : re) (b : bool) (s : str) : option mstate :=
  run r {| bol := b; rest := s; caps := [] |} Some.

(** [re.search]: the match at the leftmost position that has one. *)
Fixpoint search_from (r : re) (b : bool) (s : str) : option mstate :=
  match match_at r b s with
  | Some st => Some st
  | None =>
      match s with
      | c :: s' => search_from r (c =? NL)%N s'
      | [] => None
      end
  end.

Definition search (r : re) (s : str) : option mstate := search_from r true s.

(** [pattern.finditer]: the matches from left to right, each search
    starting where the match before it ended; [skip] counts the characters
    of the last match still to pass.  (For a pattern that matches no empty
    string, as the one it is used with.) *)
Fixpoint finditer_from (r : re) (b : bool) (s : str) (skip : nat) : list mstate :=
  match skip with
  | S n =>
      match s with
      | c :: s' => finditer_from r (c =? NL)%N s' n
      | [] => []
      end
  | O =>
      match match_at r b s with
      | Some st =>
          st :: match s with
                | c :: s' =>
                    finditer_from r (c =? NL)%N s'
                      (pred (length s - length (rest st)))
                | [] => []
                end
      | None =>
          match s with
          | c :: s' => finditer_from r (c =? NL)%N s' 0
          | [] => []
          end
      end
  end.

Definition finditer (r : re) (s : str) : list mstate := finditer_from r true s 0.

End Re.

(* ===================================================================== *)
(** ** topics.py: the parser of generated text *)
(* ===================================================================== *)

Module Parser.
Import Py Re Topics.

(** Python's Unicode database, beyond ASCII: which characters are
    alphanumeric, which match a pattern letter when case is ignored, and
    [str.lower] of a text that is not all ASCII.  Within ASCII the three are
    written out below. *)
Record unicode := mkUnicode {
  u_isalnum : char -> bool;
  u_ieq : char -> char -> bool;
  u_lower : str -> str;
}.

Definition is_ascii (c : char) : bool := (c <? 128)%N.

Definition ascii_isalnum (c : char) : bool :=
  ((48 <=? c) && (c <=? 57) || (65 <=? c) && (c <=? 90)
   || (97 <=? c) && (c <=? 122))%N.

Definition ascii_lower (c : char) : char :=
  if ((65 <=? c) && (c <=? 90))%N then (c + 32)%N else c.

Section Patterns.
Variable U : unicode.

(** [\w] *)
Definition isword (c : char) : bool :=
  (if is_ascii c then ascii_isalnum c else u_isalnum U c) || (c =? 95)%N.

(** A letter of the pattern under [re.IGNORECASE]. *)
Definition ieq (p c : char) : bool :=
  if is_ascii c then (ascii_lower c =? ascii_lower p)%N else u_ieq U p c.

(** [s.lower()] *)
Definition lower (s : str) : str :=
  if forallb is_ascii s then map ascii_lower s else u_lower U s.

Definition lit (c : char) : re := Chr (N.eqb c).
Definition ilit (c : char) : re := Chr (ieq c).
Definition iword (w : string) : re := seq (map ilit (str_of w)).

Definition HASH : char := 35%N.
Definition BACKTICK : char := 96%N.
Definition EM_DASH : char := 8212%N.

Definition any (c : char) : bool := true.
Definition in_chars (cs : string) (c : char) : bool := bool_decide (c ∈ str_of cs).
Definition not_char (x c : char) : bool := negb (c =? x)%N.

(** [#+\s*Topics?\s+to\s+Explore\s*\n(.*?)(?=\n#|\Z)] under
    [re.DOTALL | re.IGNORECASE]: the part that is the heading with its line
    break, then the captured section and the lookahead that ends it. *)
Definition HEADING : re :=
  seq [ Rep true 1 (N.eqb HASH); Rep true 0 isspace;
        iword "Topic"; Alt (ilit 115%N) Eps; Rep true 1 isspace;
        iword "to"; Rep true 1 isspace;
        iword "Explore"; Rep true 0 isspace; lit NL ].

Definition SECTION_TAIL : re :=
  seq [ Group 1 (Rep false 0 any);
        Ahead (Alt (Seq (lit NL) (lit HASH)) EndZ) ].

Definition SECTION_PATTERN : re := Seq HEADING SECTION_TAIL.

(** [TOPIC_LINE_PATTERN], compiled with [re.MULTILINE]. *)
Definition TOPIC_LINE_PATTERN : re :=
  seq [ Bol; Chr (in_chars "-*"); Rep true 1 isspace;
        lit 91%N; Group 1 (Rep true 1 isword); lit 93%N; Rep true 1 isspace;
        lit BACKTICK; Group 2 (Rep true 1 (not_char BACKTICK)); lit BACKTICK;
        Rep true 0 isspace;
        Alt (lit EM_DASH) (Alt (lit 45%N) (lit 58%N));
        Rep true 0 isspace;
        Group 3 (Rep true 1 (not_char NL)); Eol ].

Definition TOPIC_KINDS : gset str :=
  {[ str_of "file"; str_of "function"; str_of "repo"; str_of "diff";
     str_of "general" ]}.

(** The body of the loop over the matches: one Topic per match. *)
Definition topic_of_match (now : str) (source : str) (m : mstate) : Topic :=
  let kind := lower (group 1 (caps m)) in
  let target := group 2 (caps m) in
  let title := strip (group 3 (caps m)) in
  let kind := if bool_decide (kind ∉ TOPIC_KINDS) then str_of "general" else kind in
  {| title := PStr title; kind := PStr kind; target := PStr target;
     source := PStr source; status := PStr s_pending; added := PStr now |}.

Definition topics_of_section (now : clock) (source : str) (section_text : str)
  : list Topic :=
  imap (fun i m => topic_of_match (now i) source m)
       (finditer TOPIC_LINE_PATTERN section_text).

Definition parse_topics_from_response (now : clock) (response source : str)
  : list Topic :=
  match search SECTION_PATTERN response with
  | None => []
  | Some section_match =>
      topics_of_section now source (group 1 (caps section_match))
  end.

End Patterns.

(** Tables that know no character beyond ASCII; any tables agree with them
    on ASCII text. *)
Definition ascii_only : unicode :=
  {| u_isalnum := fun _ => false;
     u_ieq := fun _ _ => false;
     u_lower := fun s => s |}.

End Parser.

(* ===================================================================== *)
(** ** git_utils.py: extract_symbol and get_repo_structure *)
(* ===================================================================== *)

Module GitUtils.
Import Py.

(** *** extract_symbol *)

(** The seven [startswith] tests of the definition line. *)
Definition is_definition (symbol stripped : str) : bool :=
  startswith (str_of "def " ++ symbol ++ str_of "(") stripped
  || startswith (str_of "def " ++ symbol ++ str_of " (") stripped
  || startswith (str_of "class " ++ symbol ++ str_of "(") stripped
  || startswith (str_of "class " ++ symbol ++ str_of ":") stripped
  || startswith (str_of "class " ++ symbol ++ str_of " (") stripped
  || startswith (str_of "async def " ++ symbol ++ str_of "(") stripped
  || startswith (str_of "async def " ++ symbol ++ str_of " (") stripped.

(** [len(line) - len(stripped)] *)
Definition indent_of (line : str) : nat :=
  (length line - length (lstrip line))%nat.

(** The loop's variables: [capturing] with [base_indent] ([None] while not
    capturing, [Some base_indent] once it is), and [result_lines]. *)
Record loop_state := mkLoop {
  capturing : option nat;
  result_lines : list str;
}.

(** One pass through the body of [for line in lines]: on to the next line,
    or [break]. *)
Inductive control :=
| Continue (st : loop_state)
| Break (st : loop_state).

(** The [while] above the first [append] has nothing to do: [result_lines]
    is empty until capturing starts. *)
Definition loop_body (symbol line : str) (st : loop_state) : control :=
  let stripped := lstrip line in
  match capturing st with
  | None =>
      if is_definition symbol stripped
      then Continue {| capturing := Some (indent_of line);
                       result_lines := result_lines st ++ [line] |}
      else Continue st
  | Some base_indent =>
      match stripped with
      | [] => Continue {| capturing := Some base_indent;
                          result_lines := result_lines st ++ [line] |}
      | _ :: _ =>
          let current_indent := indent_of line in
          if bool_decide (current_indent ≤ base_indent)%nat
             && negb (startswith (str_of "#") stripped)
          then Break st
          else Continue {| capturing := Some base_indent;
                           result_lines := result_lines st ++ [line] |}
      end
  end.

Fixpoint for_lines (symbol : str) (lines : list str) (st : loop_state)
  : loop_state :=
  match lines with
  | [] => st
  | line :: lines' =>
      match loop_body symbol line st with
      | Continue st' => for_lines symbol lines' st'
      | Break st' => st'
      end
  end.

(** [content] is what [get_file_content] returned: [None] for a file that
    is missing or not UTF-8. *)
Definition extract_symbol (content : option str) (symbol : str) : option str :=
  match content with
  | None => None
  | Some content =>
      let lines := split_lines content in
      let st := for_lines symbol lines {| capturing := None; result_lines := [] |} in
      match result_lines st with
      | [] => None
      | _ :: _ => Some (join_lines (result_lines st))
      end
  end.

(** *** get_repo_structure *)

(** What [iterdir], [is_dir] and [is_file] see: a regular file, a directory
    with its entries in the order [iterdir] yields them ([readable] is false
    when listing it raises [PermissionError]), or something that is neither
    (a dangling link, a socket). *)
Inductive node :=
| File
| Other
| Dir (readable : bool) (entries : list (str * node)).

Definition entry := (str * node)%type.

Definition is_dir (e : entry) : bool :=
  match e.2 with Dir _ _ => true | _ => false end.
Definition is_file (e : entry) : bool :=
  match e.2 with File => true | _ => false end.

(** [a < b] and [a <= b] on [str]: by code points, the first difference
    decides. *)
Fixpoint str_leb (a b : str) : bool :=
  match a, b with
  | [], _ => true
  | _ :: _, [] => false
  | x :: a', y :: b' => (x <? y)%N || ((x =? y)%N && str_leb a' b')
  end.

(** The sort key [(not e.is_dir(), e.name)] and the order of two keys. *)
Definition sort_key (e : entry) : bool * str := (negb (is_dir e), e.1).

Definition key_leb (k1 k2 : bool * str) : bool :=
  if eqb k1.1 k2.1 then str_leb k1.2 k2.2 else negb k1.1.

Definition entry_le (e1 e2 : entry) : Prop :=
  key_leb (sort_key e1) (sort_key e2) = true.

#[global] Instance entry_le_dec e1 e2 : Decision (entry_le e1 e2).
Proof. unfold entry_le. apply _. Defined.

(** [sorted(dir_path.iterdir(), key=...)].  The names in a directory are
    distinct, so are the keys, and the sorted list is the same for any
    sorting algorithm. *)
Definition sorted (entries : list entry) : list entry :=
  merge_sort entry_le entries.

Definition skip_dirs : gset str :=
  list_to_set (map str_of
    [ ".git"; ".hg"; ".svn"; "node_modules"; "__pycache__";
      ".tox"; ".venv"; "venv"; ".env"; "env"; ".eggs";
      "dist"; "build"; ".mypy_cache"; ".pytest_cache";
      ".ruff_cache"; "htmlcov"; ".coverage"; "*.egg-info" ]%string).

Definition skip_suffixes : gset str :=
  list_to_set (map str_of [ ".pyc"; ".pyo"; ".so"; ".o"; ".a"; ".dylib" ]%string).

(** [name.rfind('.')]: the index of the last dot. *)
Fixpoint rfind_dot (name : str) : option nat :=
  match name with
  | [] => None
  | c :: name' =>
      match rfind_dot name' with
      | Some i => Some (S i)
      | None => if (c =? 46)%N then Some O else None
      end
  end.

(** [PurePath.suffix]: the name from its last dot on, when that dot is
    neither the first nor the last character. *)
Definition suffix (name : str) : str :=
  match rfind_dot name with
  | Some i =>
      if bool_decide (0 < i)%nat && bool_decide (i < length name - 1)%nat
      then drop i name else []
  | None => []
  end.

(** The four [continue] tests of the filter loop. *)
Definition skipped (e : entry) : bool :=
  (startswith (str_of ".") e.1 && bool_decide (e.1 ∈ skip_dirs))
  || (is_dir e && bool_decide (e.1 ∈ skip_dirs))
  || (is_dir e && endswith (str_of ".egg-info") e.1)
  || (is_file e && bool_decide (suffix e.1 ∈ skip_suffixes)).

Definition filtered (entries : list entry) : list entry :=
  filter (fun e => skipped e = false) (sorted entries).

Definition LAST : str := [9492; 9472; 9472; 32]%N.
Definition TEE : str := [9500; 9472; 9472; 32]%N.
Definition BLANK : str := str_of "    ".
Definition BAR : str := [9474; 32; 32; 32]%N.

(** [_walk]: the lines it appends.  [levels] is how many levels may still
    be listed, [max_depth - depth + 1]: the test [depth > max_depth] is
    [levels = 0], and the call one level down has one level less. *)
Fixpoint _walk (levels : nat) (dir_path : node) (prefix : str) : list str :=
  match levels with
  | O => []
  | S levels' =>
      match dir_path with
      | Dir true entries =>
          let fl := filtered entries in
          flat_map
            (fun ie : nat * entry =>
               let is_last := bool_decide (ie.1 = length fl - 1)%nat in
               let connector := if is_last then LAST else TEE in
               (prefix ++ connector ++ ie.2.1)
               :: (if is_dir ie.2
                   then _walk levels' ie.2.2
                          (prefix ++ (if is_last then BLANK else BAR))
                   else []))
            (imap pair fl)
      | _ => []
      end
  end.

(** [root_name] is [Path(repo_path).name]; [repo_path] is a directory, with
    the given entries. *)
Definition get_repo_structure (root_name : str) (readable : bool)
    (entries : list entry) (max_depth : Z) : str :=
  let root := Dir readable entries in
  join_lines ((root_name ++ str_of "/") :: _walk (Z.to_nat max_depth) root []).

End GitUtils.

(* ===================================================================== *)
(** * The notions the properties are stated with *)
(* ===================================================================== *)

(** ** For the persisted queue *)

Module TopicsDefs.
Import Py Topics.

(** Two targets are equal, as the set of targets compares them. *)
Definition same_target (t u : Topic) : bool :=
  match hash_key (target t), hash_key (target u) with
  | Ok a, Ok b => bool_decide (a = b)
  | _, _ => false
  end.

Definition hashable (t : Topic) : Prop := ∃ k, hash_key (target t) = Ok k.

(** Following the design document: the [i]-th input Topic is appended when
    its target is the target of no Topic of the queue and of no earlier
    Topic of the input; [appended] lists those, in input order. *)
Definition is_new (queue topics : list Topic) (i : nat) (t : Topic) : bool :=
  forallb (fun u => negb (same_target u t)) (queue ++ take i topics).

Definition appended (queue topics : list Topic) : list Topic :=
  concat (imap (fun i t => if is_new queue topics i t then [t] else []) topics).

Definition sample_topic (tgt : string) : Topic :=
  {| title := PStr (str_of "T"); kind := PStr (str_of "file");
     target := PStr (str_of tgt); source := PStr [];
     status := PStr s_pending; added := PStr (str_of "2024-01-01T00:00:00") |}.

Definition sample_clock : clock := fun _ => str_of "2024-01-02T00:00:00".

(** The pending Topics, in stored order. *)
Definition pending (queue : list Topic) : list Topic :=
  filter (fun t => is_pending t = true) queue.



Definition sample_queue : list Topic :=
  [sample_topic "a.py"; set_status s_skipped (sample_topic "b.py"); sample_topic "c.py"].

Definition done_queue : list Topic := [set_status s_done (sample_topic "a.py")].

(** The operations of the store that decide what they write, or write
    nothing, and the file each leaves behind. *)
Inductive op :=
| Add (topics : list Topic)
| PopNext
| Skip (index : Z)
| PendingCount
| Load.

Definition run_op (now : clock) (fs : file) (o : op) : outcome file :=
  match o with
  | Add topics => r ← add_topics now fs topics; Ok r.2
  | PopNext => r ← pop_next now fs; Ok r.2
  | Skip index => r ← skip_topic now fs index; Ok r.2
  | PendingCount => _ ← pending_count now fs; Ok fs
  | Load => _ ← load_queue now fs; Ok fs
  end.

Fixpoint run_ops (now : clock) (fs : file) (os : list op) : outcome file :=
  match os with
  | [] => Ok fs
  | o :: os' => fs' ← run_op now fs o; run_ops now fs' os'
  end.

(** What one operation may do to one stored Topic: nothing, or, if it is
    pending, set its status, to done if the operation is pop_next and to
    skipped if it is skip_topic. *)
Definition topic_step (o : op) (t t' : Topic) : Prop :=
  t' = t
  ∨ (is_pending t = true
     ∧ match o with
       | PopNext => t' = set_status s_done t
       | Skip _ => t' = set_status s_skipped t
       | _ => False
       end).

(** What any number of operations may do to it. *)
Definition topic_history (t t' : Topic) : Prop :=
  t' = t
  ∨ (is_pending t = true ∧ (t' = set_status s_done t ∨ t' = set_status s_skipped t)).

(** The stored sequence [q'] continues [q]: every Topic of [q] is still at
    its place, changed only as [step] allows, and Topics may have been
    appended. *)
Definition continues (step : Topic -> Topic -> Prop) (q q' : list Topic) : Prop :=
  ∃ q1 extra, q' = q1 ++ extra ∧ Forall2 step q q1.





Definition field_of (item : pyval) (f : str) : option pyval :=
  match item with
  | PDict kw => kw_get f kw
  | _ => None
  end.

(** A record that has all six fields, as [save_queue] writes them. *)
Definition complete_record (item : pyval) : Prop :=
  ∀ f, f ∈ field_names → is_Some (field_of item f).

Definition partial_record : pyval :=
  PDict [(f_title, PStr (str_of "T")); (f_kind, PStr (str_of "file"));
         (f_target, PStr (str_of "a.py"))].

End TopicsDefs.

(** ** For extract_symbol and get_repo_structure *)

Module GitUtilsDefs.
Import Py GitUtils.

Definition emit (line : str) (base_indent : nat) (res : list str) : control :=
  Continue {| capturing := Some base_indent; result_lines := res ++ [line] |}.

(** A line whose first character after the indentation is [#]. *)
Definition is_comment (line : str) : bool := startswith (str_of "#") (lstrip line).

Definition sample_state : loop_state :=
  {| capturing := Some 0%nat; result_lines := [str_of "def f():"; str_of "    pass"] |}.

Definition commented_source : str :=
  join_lines [str_of "def f():"; str_of "    pass"; str_of "# note";
              str_of "    x = 1"; str_of "y = 2"].



(** The scenario of the design document: [.git/], [src/app.py], [README.md]. *)
Definition scenario_root : list entry :=
  [ (str_of "README.md", File);
    (str_of ".git", Dir true [(str_of "HEAD", File)]);
    (str_of "src", Dir true [(str_of "app.py", File)]) ].

Definition scenario_tree : str :=
  join_lines [ str_of "repo/";
               TEE ++ str_of "src";
               BAR ++ LAST ++ str_of "app.py";
               LAST ++ str_of "README.md" ].

End GitUtilsDefs.

(** ** For the matcher *)

Module ReDefs.
Import Py Re.

(** The texts a pattern can consume, whatever the context: anchors and
    lookahead consume nothing, a group consumes what its body does. *)
Fixpoint lang (r : re) (w : str) : Prop :=
  match r with
  | Eps | Ahead _ | Bol | Eol | EndZ => w = []
  | Chr p => ∃ c, w = [c] ∧ p c = true
  | Rep _ lo p => (lo ≤ length w)%nat ∧ forallb p w = true
  | Seq r1 r2 => ∃ w1 w2, w = w1 ++ w2 ∧ lang r1 w1 ∧ lang r2 w2
  | Alt r1 r2 => lang r1 w ∨ lang r2 w
  | Group _ r1 => lang r1 w
  end.




End ReDefs.

(** ** For the parser of generated text *)

Module ParserDefs.
Import Py Re Topics Parser TopicsDefs ReDefs.












Definition LBRACKET : char := 91%N.
Definition RBRACKET : char := 93%N.

(** A bullet line on which something other than [[] follows the marker. *)
Definition lacks_kind (line : str) : Prop :=
  ∃ c ws x tail, line = c :: ws ++ x :: tail
    ∧ forallb isspace ws = true ∧ isspace x = false ∧ x ≠ LBRACKET.

(** A bullet line on which something other than a backtick follows the
    bracketed kind. *)
Definition lacks_target (U : unicode) (line : str) : Prop :=
  ∃ c ws k ws' x tail, line = c :: ws ++ LBRACKET :: k ++ RBRACKET :: ws' ++ x :: tail
    ∧ forallb isspace ws = true ∧ forallb (isword U) k = true
    ∧ forallb isspace ws' = true ∧ isspace x = false ∧ x ≠ BACKTICK.

Definition line_without_kind : str := str_of "- `a.py` - desc".
Definition line_without_target : str := str_of "- [file] a.py - desc".
Definition line_with_unknown_kind : str := str_of "- [Bogus] `b` - desc2".

(** The scenario of the design document: two bullets, the second with an
    unknown kind. *)
Definition scenario_text : str :=
  join_lines [ str_of "## Topics to Explore";
               str_of "- [file] `a.py` " ++ [EM_DASH] ++ str_of " desc";
               str_of "- [bogus] `b` " ++ [EM_DASH] ++ str_of " desc2" ].





(** A heading followed by a blank line and by a deeper heading. *)
Definition blank_line_heading : str := str_of "## Topics to Explore" ++ [NL; NL].
Definition blank_line_region : str :=
  join_lines [ str_of "### Files"; str_of "- [file] `a` - x" ].
Definition blank_line_post : str :=
  NL :: join_lines [ str_of "### More"; str_of "- [file] `b` - y" ].
Definition blank_line_text : str :=
  blank_line_heading ++ blank_line_region ++ blank_line_post.

(** A bullet line that stops after its kind, and a bullet line that stops
    after its separator with a line that has no backtick-delimited target
    below it. *)
Definition split_bullet_text : str :=
  join_lines [ str_of "## Topics to Explore"; str_of "- [file]"; str_of "`a.py` - desc" ].

Definition swallowed_line_text : str :=
  join_lines [ str_of "## Topics to Explore"; str_of "- [file] `a` -";
               str_of "- [repo] nope - y"; str_of "- [diff] `d` - z" ].

End ParserDefs.

(** ** For the further properties *)

Module MoreDefs.
Import Py Re Topics Parser GitUtils TopicsDefs GitUtilsDefs ReDefs ParserDefs.


(** The hash keys of the stored targets, in stored order. *)
Definition keys (queue : list Topic) : list (outcome hkey) :=
  map (fun t => hash_key (target t)) queue.

(** Every target can be hashed and no two stored Topics have equal targets. *)
Definition distinct_targets (queue : list Topic) : Prop :=
  Forall hashable queue ∧ NoDup (keys queue).

(** The inputs of every [Add] of a sequence of operations can be hashed. *)
Definition hashable_inputs (os : list op) : Prop :=
  ∀ topics, Add topics ∈ os → Forall hashable topics.

Definition odd_target_record : pyval :=
  PDict [(f_title, PStr (str_of "T")); (f_kind, PStr (str_of "file"));
         (f_target, PList [PStr (str_of "a.py")])].
End MoreDefs.

(** ** The inputs of the repository's tests *)

Module TestData.
Import Py Topics Parser GitUtils.

Definition now : clock := fun _ => str_of "2025-01-01T12:00:00".

(** [Topic(title=..., kind=..., target=...)] at the time [now 0]. *)
Definition new_topic (title_ kind_ target_ : string) : Topic :=
  {| title := PStr (str_of title_); kind := PStr (str_of kind_);
     target := PStr (str_of target_); source := PStr [];
     status := PStr s_pending; added := PStr (now 0%nat) |}.

Definition hello_source : str :=
  join_lines [ str_of "def hello(name):";
               str_of "    return name";
               [];
               str_of "def other():";
               str_of "    pass";
               [] ].

Definition response : str :=
  join_lines [ [];
               str_of "# Explanation";
               [];
               str_of "Here is the explanation of the file.";
               [];
               str_of "## Topics to Explore";
               [];
               str_of "- [file] `src/workflow/executor.py` " ++ [EM_DASH]
                 ++ str_of " Orchestrates the plan-execute-synthesize loop";
               str_of "- [function] `src/router.py:route_request` " ++ [EM_DASH]
                 ++ str_of " Decides which agent handles each request";
               str_of "- [general] `error-handling-strategy` " ++ [EM_DASH]
                 ++ str_of " How failures propagate across agent boundaries";
               [] ].

End TestData.

(* ===================================================================== *)
(** * Properties of the persisted queue *)
(* ===================================================================== *)

Module TopicsSpec.
Import Py Topics TopicsDefs.

(** Unfolding of the monadic bind of [outcome]. *)
Lemma bind_Ok {A B} (f : A -> outcome B) (a : A) : (Ok a ≫= f) = f a.
Proof. reflexivity. Qed.

Lemma bind_Raise {A B} (f : A -> outcome B) (e : exn) : (Raise e ≫= f) = Raise e.
Proof. reflexivity. Qed.

Lemma bind_inv_Ok {A B} (m : outcome A) (f : A -> outcome B) (b : B) :
  (m ≫= f) = Ok b → ∃ a, m = Ok a ∧ f a = Ok b.
Proof. destruct m as [a|e]; [eauto | discriminate]. Qed.

(** *** Decoding what [save_queue] wrote *)

Lemma Topic_init_asdict (now : str) (t : Topic) : Topic_init now (asdict t) = Ok t.
Proof. destruct t. reflexivity. Qed.

Lemma comprehension_asdict (now : clock) (i : nat) (q : list Topic) :
  comprehension (fun i item => Topic_init (now i) item) i (map asdict q) = Ok q.
Proof.
  revert i. induction q as [|t q IH]; intros i; [reflexivity|].
  cbn [map comprehension]. rewrite Topic_init_asdict, bind_Ok, IH. reflexivity.
Qed.

Lemma load_save (now : clock) (q : list Topic) :
  load_queue now (save_queue q) = Ok q.
Proof. unfold load_queue, save_queue, py_iter. rewrite bind_Ok. apply comprehension_asdict. Qed.

(** *** add_topics *)

Lemma same_target_str (t u : Topic) (a b : str) :
  target t = PStr a → target u = PStr b → same_target t u = bool_decide (a = b).
Proof.
  intros Ht Hu. unfold same_target. rewrite Ht, Hu. cbn.
  apply bool_decide_ext. split; [by intros [= ->] | by intros ->].
Qed.

Lemma appended_nil (queue : list Topic) : appended queue [] = [].
Proof. reflexivity. Qed.

Lemma appended_cons (queue : list Topic) (t : Topic) (ts : list Topic) :
  appended queue (t :: ts)
  = (if is_new queue [] 0 t then [t] else []) ++ appended (queue ++ [t]) ts.
Proof.
  unfold appended. rewrite imap_cons. cbn [concat]. f_equal. f_equal.
  apply imap_ext. intros i u _. cbn. unfold is_new. cbn [take].
  by rewrite <- app_assoc.
Qed.

Lemma target_set_spec (queue : list Topic) :
  Forall hashable queue →
  ∃ s, target_set queue = Ok s
       ∧ ∀ k, k ∈ s ↔ ∃ u, u ∈ queue ∧ hash_key (target u) = Ok k.
Proof.
  induction 1 as [|t queue [k Hk] _ (s & Hs & IH)].
  - exists ∅. split; [reflexivity|]. intros k. split; [set_solver|].
    intros (u & Hu & _). by apply elem_of_nil in Hu.
  - exists ({[k]} ∪ s). split.
    + cbn. rewrite Hk, bind_Ok, Hs. reflexivity.
    + intros k'. rewrite elem_of_union, elem_of_singleton, IH. split.
      * intros [->|(u & Hu & Hku)]; [exists t | exists u]; split; auto; constructor; auto.
      * intros (u & Hu & Hku). apply elem_of_cons in Hu as [->|Hu]; [left; congruence|right; eauto].
Qed.

Lemma forallb_false_elem {A} (f : A -> bool) (l : list A) :
  forallb f l = false → ∃ x, x ∈ l ∧ f x = false.
Proof.
  induction l as [|a l IH]; cbn; [discriminate|].
  destruct (f a) eqn:Ha; cbn.
  - intros (x & Hx & Hfx)%IH. exists x. split; [by constructor|done].
  - intros _. exists a. split; [by constructor|done].
Qed.

Lemma is_new_spec (seen : list Topic) (s : gset hkey) (t : Topic) (k : hkey) :
  Forall hashable seen →
  (∀ k, k ∈ s ↔ ∃ u, u ∈ seen ∧ hash_key (target u) = Ok k) →
  hash_key (target t) = Ok k →
  bool_decide (k ∉ s) = is_new seen [] 0 t.
Proof.
  intros Hh Hs Hk. unfold is_new. cbn [take]. rewrite app_nil_r.
  destruct (forallb _ seen) eqn:Hall.
  - apply bool_decide_eq_true. rewrite Hs. intros (u & Hu & Hku).
    rewrite forallb_forall in Hall. apply list_elem_of_In, Hall in Hu.
    unfold same_target in Hu. rewrite Hku, Hk in Hu. by rewrite bool_decide_eq_true_2 in Hu.
  - apply bool_decide_eq_false. intros Hnot. apply Hnot, Hs.
    apply forallb_false_elem in Hall as (u & Hu & Hsame).
    exists u. split; [done|].
    rewrite Forall_forall in Hh. destruct (Hh u Hu) as [ku Hku].
    unfold same_target in Hsame. rewrite Hku, Hk in Hsame.
    apply negb_false_iff, bool_decide_eq_true in Hsame. congruence.
Qed.

Lemma add_loop_spec (topics queue seen : list Topic) (s : gset hkey) (n : nat) :
  Forall hashable seen → Forall hashable topics →
  (∀ k, k ∈ s ↔ ∃ u, u ∈ seen ∧ hash_key (target u) = Ok k) →
  add_loop topics queue s n
  = Ok (queue ++ appended seen topics, (n + length (appended seen topics))%nat).
Proof.
  revert queue seen s n.
  induction topics as [|t ts IH]; intros queue seen s n Hseen Hts Hs.
  - cbn. by rewrite app_nil_r, Nat.add_0_r.
  - apply Forall_cons in Hts as [[k Hk] Hts].
    cbn [add_loop]. rewrite Hk, bind_Ok, appended_cons.
    rewrite (is_new_spec seen s t k) by done.
    assert (Hseen' : Forall hashable (seen ++ [t])).
    { apply Forall_app. split; [done|]. repeat constructor. by exists k. }
    destruct (is_new seen [] 0 t) eqn:Hnew.
    + rewrite (IH _ (seen ++ [t])); [|done|done|].
      * cbn [app length]. by rewrite <- app_assoc, Nat.add_succ_comm.
      * intros k'. rewrite elem_of_union, elem_of_singleton, Hs. split.
        -- intros [->|(u & Hu & Hku)]; [exists t | exists u];
             (split; [|done]); apply elem_of_app; [right|left]; [by constructor|done].
        -- intros (u & [Hu|Hu%list_elem_of_singleton]%elem_of_app & Hku);
             [right; eauto | left; congruence].
    + rewrite (IH _ (seen ++ [t])); [done|done|done|].
      intros k'. rewrite Hs. split.
      * intros (u & Hu & Hku). exists u. split; [|done]. apply elem_of_app. by left.
      * intros (u & [Hu|Hu%list_elem_of_singleton]%elem_of_app & Hku); [eauto|].
        subst u. assert (k' = k) as -> by congruence.
        apply Hs. rewrite <- (is_new_spec seen s t k) in Hnew by done.
        apply bool_decide_eq_false in Hnew. by apply dec_stable.
Qed.

Lemma length_appended_le (queue topics : list Topic) :
  (length (appended queue topics) ≤ length topics)%nat.
Proof.
  revert queue. induction topics as [|t ts IH]; intros queue; [done|].
  rewrite appended_cons, length_app. specialize (IH (queue ++ [t])).
  destruct (is_new queue [] 0 t); cbn; lia.
Qed.

Lemma length_appended_lt (queue topics : list Topic) (j : nat) (tj : Topic) :
  topics !! j = Some tj → is_new queue topics j tj = false →
  (length (appended queue topics) < length topics)%nat.
Proof.
  revert queue j. induction topics as [|t ts IH]; intros queue j Hj Hnew; [done|].
  rewrite appended_cons, length_app. destruct j as [|j]; cbn in Hj.
  - injection Hj as ->. change (is_new queue (tj :: ts) 0 tj) with (is_new queue [] 0 tj) in Hnew.
    rewrite Hnew. pose proof (length_appended_le (queue ++ [tj]) ts). cbn; lia.
  - assert (Hnew' : is_new (queue ++ [t]) ts j tj = false).
    { rewrite <- Hnew. unfold is_new. cbn [take]. by rewrite <- app_assoc. }
    specialize (IH _ _ Hj Hnew'). destruct (is_new queue [] 0 t); cbn; lia.
Qed.

Lemma is_new_later_duplicate (queue topics : list Topic) (i j : nat) (ti tj : Topic) :
  (i < j)%nat → topics !! i = Some ti → same_target ti tj = true →
  is_new queue topics j tj = false.
Proof.
  intros Hij Hi Hsame. unfold is_new.
  destruct (forallb _ _) eqn:Hall; [|done].
  rewrite forallb_forall in Hall. specialize (Hall ti).
  rewrite Hsame in Hall. symmetry. apply Hall, list_elem_of_In, elem_of_app. right.
  apply list_elem_of_lookup. exists i. by rewrite lookup_take_lt.
Qed.

(** C1.  On a loadable queue with hashable targets (strings are), add_topics
    appends, in input order, exactly the input Topics whose target is the
    target of no Topic of the queue and of no earlier input Topic; it
    returns how many it appended; it writes the file only when that is not
    zero, and what it writes loads as the old queue followed by the new
    Topics.  Of two input Topics with equal targets the later one is never
    appended, and the count is then strictly less than the input length. *)
Theorem add_topics_spec (now : clock) (fs : file) (queue topics : list Topic) :
  load_queue now fs = Ok queue →
  Forall hashable queue → Forall hashable topics →
  let new := appended queue topics in
  add_topics now fs topics
    = Ok (length new, match new with [] => fs | _ :: _ => save_queue (queue ++ new) end)
  ∧ (∀ now', load_queue now' (save_queue (queue ++ new)) = Ok (queue ++ new))
  ∧ (∀ i j ti tj, (i < j)%nat → topics !! i = Some ti → topics !! j = Some tj →
       same_target ti tj = true →
       is_new queue topics j tj = false ∧ (length new < length topics)%nat).
Proof.
  intros Hload Hq Hts new. split; [|split].
  - unfold add_topics. rewrite Hload, bind_Ok.
    destruct (target_set_spec queue Hq) as (s & -> & Hs). rewrite bind_Ok.
    rewrite (add_loop_spec topics queue queue s 0) by done. rewrite bind_Ok.
    cbn [fst snd]. fold new. destruct new; cbn; [done|].
    by rewrite bool_decide_eq_true_2.
  - intros now'. apply load_save.
  - intros i j ti tj Hij Hi Hj Hsame.
    pose proof (is_new_later_duplicate queue topics i j ti tj Hij Hi Hsame) as Hnew.
    split; [done|]. by eapply length_appended_lt.
Qed.

Lemma add_topics_spec_witness :
  add_topics sample_clock (save_queue [sample_topic "a.py"])
    [sample_topic "b.py"; sample_topic "a.py"; sample_topic "b.py"]
  = Ok (1%nat, save_queue [sample_topic "a.py"; sample_topic "b.py"]).
Proof.
  pose proof (add_topics_spec sample_clock (save_queue [sample_topic "a.py"])
                [sample_topic "a.py"]
                [sample_topic "b.py"; sample_topic "a.py"; sample_topic "b.py"]) as H.
  destruct H as (H & _).
  - reflexivity.
  - repeat constructor; eexists; reflexivity.
  - repeat constructor; eexists; reflexivity.
  - rewrite H. vm_compute. reflexivity.
Defined.

(** *** pop_next *)

Lemma is_pending_set_done (t : Topic) : is_pending (set_status s_done t) = false.
Proof. reflexivity. Qed.

Lemma is_pending_set_skipped (t : Topic) : is_pending (set_status s_skipped t) = false.
Proof. reflexivity. Qed.

Lemma pending_cons (t : Topic) (l : list Topic) :
  pending (t :: l) = if is_pending t then t :: pending l else pending l.
Proof.
  unfold pending. rewrite filter_cons. destruct (is_pending t); [by rewrite decide_True|].
  by rewrite decide_False.
Qed.

Lemma pop_loop_none (queue : list Topic) :
  pending queue = [] → pop_loop queue = None.
Proof.
  unfold pending. induction queue as [|t queue IH]; [done|].
  rewrite filter_cons. cbn. destruct (is_pending t) eqn:Ht.
  - rewrite decide_True by done. discriminate.
  - rewrite decide_False by (by rewrite not_true_iff_false). intros ->%IH. done.
Qed.

Lemma pop_loop_some (pre post : list Topic) (t : Topic) :
  pending pre = [] → is_pending t = true →
  pop_loop (pre ++ t :: post)
  = Some (set_status s_done t, pre ++ set_status s_done t :: post).
Proof.
  unfold pending. intros Hpre Ht. induction pre as [|u pre IH]; cbn.
  - by rewrite Ht.
  - rewrite filter_cons in Hpre. destruct (is_pending u) eqn:Hu.
    + by rewrite decide_True in Hpre.
    + rewrite decide_False in Hpre by (by rewrite not_true_iff_false).
      by rewrite (IH Hpre).
Qed.

(** A queue splits at its first pending Topic. *)
Lemma pending_split (queue : list Topic) (t : Topic) (ts : list Topic) :
  pending queue = t :: ts →
  ∃ pre post, queue = pre ++ t :: post ∧ pending pre = [] ∧ is_pending t = true
              ∧ pending post = ts.
Proof.
  unfold pending. induction queue as [|u queue IH]; [done|].
  rewrite filter_cons. destruct (is_pending u) eqn:Hu.
  - rewrite decide_True by done. intros [= -> <-]. by exists [], queue.
  - rewrite decide_False by (by rewrite not_true_iff_false).
    intros (pre & post & -> & Hpre & Ht & Hpost)%IH.
    exists (u :: pre), post. split; [done|]. split; [|done].
    rewrite filter_cons, decide_False by (by rewrite not_true_iff_false). done.
Qed.

Lemma pending_app (l1 l2 : list Topic) : pending (l1 ++ l2) = pending l1 ++ pending l2.
Proof. apply filter_app. Qed.



Lemma pop_next_spec (now : clock) (fs : file) (queue : list Topic) :
  load_queue now fs = Ok queue →
  (pending queue = [] → pop_next now fs = Ok (None, fs))
  ∧ (∀ pre t post, queue = pre ++ t :: post → pending pre = [] → is_pending t = true →
       pop_next now fs
       = Ok (Some (set_status s_done t), save_queue (pre ++ set_status s_done t :: post))).
Proof.
  intros Hload. unfold pop_next. rewrite Hload, bind_Ok. split.
  - intros Hnone. by rewrite pop_loop_none.
  - intros pre t post -> Hpre Ht. by rewrite pop_loop_some.
Qed.




(** *** skip_topic *)

Lemma length_pending_from (i : nat) (queue : list Topic) :
  length (pending_from i queue) = length (pending queue).
Proof.
  revert i. induction queue as [|t queue IH]; intros i; [done|].
  cbn [pending_from]. rewrite pending_cons. destruct (is_pending t); cbn; by rewrite IH.
Qed.

Lemma pending_from_lookup (i : nat) (pre post : list Topic) (t : Topic) :
  is_pending t = true →
  pending_from i (pre ++ t :: post) !! length (pending pre) = Some (i + length pre)%nat.
Proof.
  intros Ht. revert i. induction pre as [|u pre IH]; intros i.
  - cbn. rewrite Ht. cbn. f_equal. lia.
  - cbn [app pending_from]. rewrite pending_cons. destruct (is_pending u).
    + cbn. rewrite IH. f_equal. lia.
    + rewrite IH. cbn. f_equal. lia.
Qed.

(** A queue splits at its [n]-th pending Topic. *)
Lemma pending_nth_split (queue : list Topic) (n : nat) :
  (n < length (pending queue))%nat →
  ∃ pre t post, queue = pre ++ t :: post ∧ length (pending pre) = n ∧ is_pending t = true.
Proof.
  revert n. induction queue as [|u queue IH]; intros n; [cbn; lia|].
  rewrite pending_cons. destruct (is_pending u) eqn:Hu.
  - destruct n as [|n].
    + intros _. by exists [], u, queue.
    + cbn. intros Hn. destruct (IH n) as (pre & t & post & -> & Hpre & Ht); [lia|].
      exists (u :: pre), t, post. rewrite pending_cons, Hu. cbn. by rewrite Hpre.
  - intros Hn. destruct (IH n Hn) as (pre & t & post & -> & Hpre & Ht).
    exists (u :: pre), t, post. by rewrite pending_cons, Hu.
Qed.

Lemma alter_middle {A} (f : A -> A) (pre post : list A) (x : A) :
  alter f (length pre) (pre ++ x :: post) = pre ++ f x :: post.
Proof. induction pre as [|y pre IH]; cbn; [done|]. by rewrite IH. Qed.

Lemma skip_topic_out_of_range (now : clock) (fs : file) (queue : list Topic) (index : Z) :
  load_queue now fs = Ok queue →
  index < 0 ∨ Z.of_nat (length (pending queue)) ≤ index →
  skip_topic now fs index = Ok (false, fs).
Proof.
  intros Hload Hrange. unfold skip_topic. rewrite Hload, bind_Ok. cbn zeta.
  rewrite length_pending_from. rewrite bool_decide_eq_true_2; [done|lia].
Qed.

Lemma skip_topic_in_range (now : clock) (fs : file) (pre post : list Topic) (t : Topic) :
  load_queue now fs = Ok (pre ++ t :: post) → is_pending t = true →
  skip_topic now fs (Z.of_nat (length (pending pre)))
  = Ok (true, save_queue (pre ++ set_status s_skipped t :: post)).
Proof.
  intros Hload Ht. unfold skip_topic. rewrite Hload, bind_Ok. cbn zeta.
  rewrite length_pending_from, pending_app, pending_cons, Ht, length_app.
  rewrite bool_decide_eq_false_2 by (cbn [length]; lia).
  rewrite Nat2Z.id, (pending_from_lookup 0 pre post t Ht). cbn [Nat.add].
  by rewrite alter_middle.
Qed.



(** *** Status only moves forward *)

Lemma Forall2_same {A} (R : A -> A -> Prop) (l : list A) :
  (∀ x, R x x) → Forall2 R l l.
Proof. intros HR. induction l; constructor; auto. Qed.

Lemma continues_refl (o : op) (q : list Topic) : continues (topic_step o) q q.
Proof.
  exists q, []. split; [by rewrite app_nil_r|]. apply Forall2_same. by left.
Qed.

Lemma add_loop_extends (topics queue : list Topic) (s : gset hkey) (n : nat)
    (queue' : list Topic) (n' : nat) :
  add_loop topics queue s n = Ok (queue', n') → ∃ extra, queue' = queue ++ extra.
Proof.
  revert queue s n. induction topics as [|t ts IH]; intros queue s n.
  - cbn. intros [= <- <-]. exists []. by rewrite app_nil_r.
  - cbn [add_loop]. intros (k & Hk & H)%bind_inv_Ok.
    destruct (bool_decide (k ∉ s)).
    + apply IH in H as [extra ->]. exists (t :: extra). by rewrite <- app_assoc.
    + by apply IH in H.
Qed.

Lemma pop_loop_step (queue : list Topic) (t : Topic) (queue' : list Topic) :
  pop_loop queue = Some (t, queue') → Forall2 (topic_step PopNext) queue queue'.
Proof.
  revert queue'. induction queue as [|u queue IH]; intros queue'; [done|].
  cbn [pop_loop]. destruct (is_pending u) eqn:Hu.
  - intros [= <- <-]. constructor; [by right|]. apply Forall2_same. by left.
  - destruct (pop_loop queue) as [[r q1]|]; [|done]. cbn.
    intros [= <- <-]. constructor; [by left|]. by apply IH.
Qed.

Lemma pending_from_elem (i p : nat) (queue : list Topic) :
  p ∈ pending_from i queue →
  (i ≤ p)%nat ∧ ∃ t, queue !! (p - i)%nat = Some t ∧ is_pending t = true.
Proof.
  revert i. induction queue as [|u queue IH]; intros i; cbn [pending_from].
  - by intros ?%elem_of_nil.
  - assert (Hrec : p ∈ pending_from (S i) queue →
              (i ≤ p)%nat ∧ ∃ t, (u :: queue) !! (p - i)%nat = Some t ∧ is_pending t = true).
    { intros (Hle & t & Ht & Hp)%IH. split; [lia|]. exists t. split; [|done].
      replace (p - i)%nat with (S (p - S i)) by lia. done. }
    destruct (is_pending u) eqn:Hu; [|done].
    intros [->|Hin]%elem_of_cons; [|auto].
    split; [lia|]. exists u. by rewrite Nat.sub_diag.
Qed.

Lemma alter_step (index : Z) (queue : list Topic) (p : nat) :
  (∀ t, queue !! p = Some t → is_pending t = true) →
  Forall2 (topic_step (Skip index)) queue (alter (set_status s_skipped) p queue).
Proof.
  revert p. induction queue as [|u queue IH]; intros p Hp; [constructor|].
  destruct p as [|p]; cbn.
  - constructor; [right; split; [by apply Hp|done]|]. apply Forall2_same. by left.
  - constructor; [by left|]. apply IH. intros t Ht. by apply Hp.
Qed.

Lemma run_op_continues (now : clock) (fs fs' : file) (o : op) (q : list Topic) :
  load_queue now fs = Ok q → run_op now fs o = Ok fs' →
  ∃ q', load_queue now fs' = Ok q' ∧ continues (topic_step o) q q'.
Proof.
  intros Hload. destruct o as [topics| |index| |]; cbn [run_op].
  - unfold add_topics. rewrite Hload, bind_Ok.
    intros ([n fs1] & (s & Hs & ([q1 n1] & Hloop & H)%bind_inv_Ok)%bind_inv_Ok
              & [= <-])%bind_inv_Ok.
    cbn [fst snd] in H. apply add_loop_extends in Hloop as [extra ->].
    destruct (bool_decide (n1 ≠ 0%nat)); injection H as <- <-.
    + exists (q ++ extra). split; [apply load_save|].
      exists q, extra. split; [done|]. apply Forall2_same. by left.
    + exists q. split; [done|]. apply continues_refl.
  - unfold pop_next. rewrite Hload, bind_Ok.
    destruct (pop_loop q) as [[t q1]|] eqn:Hpop; cbn; intros [= <-].
    + exists q1. split; [apply load_save|]. exists q1, []. split; [by rewrite app_nil_r|].
      by eapply pop_loop_step.
    + exists q. split; [done|]. apply continues_refl.
  - unfold skip_topic. rewrite Hload, bind_Ok. cbn zeta.
    destruct (bool_decide _); [cbn; intros [= <-]; exists q; split; [done|apply continues_refl]|].
    destruct (pending_from 0 q !! Z.to_nat index) as [p|] eqn:Hp; cbn; intros [= <-].
    + exists (alter (set_status s_skipped) p q). split; [apply load_save|].
      exists (alter (set_status s_skipped) p q), []. split; [by rewrite app_nil_r|].
      apply alter_step. intros t Ht.
      apply list_elem_of_lookup_2, pending_from_elem in Hp as (_ & t' & Ht' & Hpend).
      rewrite Nat.sub_0_r in Ht'. congruence.
    + exists q. split; [done|]. apply continues_refl.
  - intros (_ & _ & [= <-])%bind_inv_Ok. exists q. split; [done|]. apply continues_refl.
  - intros (_ & _ & [= <-])%bind_inv_Ok. exists q. split; [done|]. apply continues_refl.
Qed.

Lemma topic_step_history (o : op) (t t' : Topic) : topic_step o t t' → topic_history t t'.
Proof.
  intros [->|[Hp H]]; [by left|]. right. split; [done|].
  destruct o; try done; auto.
Qed.

Lemma topic_history_trans (t1 t2 t3 : Topic) :
  topic_history t1 t2 → topic_history t2 t3 → topic_history t1 t3.
Proof.
  intros [->|[Hp1 H1]] H2; [done|].
  destruct H2 as [->|[Hp2 _]]; [by right|].
  destruct H1 as [-> | ->]; by rewrite ?is_pending_set_done, ?is_pending_set_skipped in Hp2.
Qed.

Lemma continues_trans (q1 q2 q3 : list Topic) :
  continues topic_history q1 q2 → continues topic_history q2 q3 →
  continues topic_history q1 q3.
Proof.
  intros (a & ea & -> & Ha) (b & eb & -> & Hb).
  apply Forall2_app_inv_l in Hb as (b1 & b2 & Hb1 & Hb2 & ->).
  exists b1, (b2 ++ eb). split; [by rewrite app_assoc|].
  clear Hb2. revert b1 Hb1. induction Ha as [|x y l l' Hxy _ IH]; intros b1 Hb1.
  - apply Forall2_nil_inv_l in Hb1 as ->. constructor.
  - apply Forall2_cons_inv_l in Hb1 as (z & b1' & Hyz & Hb1' & ->).
    constructor; [by eapply topic_history_trans|]. by apply IH.
Qed.

Lemma run_ops_continues (now : clock) (os : list op) (fs fs' : file) (q : list Topic) :
  load_queue now fs = Ok q → run_ops now fs os = Ok fs' →
  ∃ q', load_queue now fs' = Ok q' ∧ continues topic_history q q'.
Proof.
  revert fs q. induction os as [|o os IH]; intros fs q Hload; cbn [run_ops].
  - intros [= <-]. exists q. split; [done|]. exists q, [].
    split; [by rewrite app_nil_r|]. apply Forall2_same. by left.
  - intros (fs1 & Hop & Hrest)%bind_inv_Ok.
    destruct (run_op_continues now fs fs1 o q Hload Hop) as (q1 & Hload1 & (a & e & -> & Ha)).
    destruct (IH fs1 _ Hload1 Hrest) as (q' & Hload' & Hcont).
    exists q'. split; [done|]. eapply continues_trans; [|exact Hcont].
    exists a, e. split; [done|]. eapply Forall2_impl; [exact Ha|].
    intros x y. apply topic_step_history.
Qed.

(** C4, as the code has it.  Each operation of the store that decides what
    it writes (add_topics, pop_next, skip_topic; pending_count and load_queue
    write nothing) leaves every stored Topic at its place and changes at
    most the status of one that is pending, pop_next to done and skip_topic
    to skipped; a Topic whose status is not pending is never changed, and
    none is removed.  The same holds over any sequence of these operations.
    save_queue is left out: it stores the sequence its caller hands it. *)
Theorem status_monotone (now : clock) (fs fs' : file) (q : list Topic) :
  load_queue now fs = Ok q →
  (∀ o, run_op now fs o = Ok fs' →
     ∃ q', load_queue now fs' = Ok q' ∧ continues (topic_step o) q q')
  ∧ (∀ os, run_ops now fs os = Ok fs' →
     ∃ q', load_queue now fs' = Ok q' ∧ continues topic_history q q'
           ∧ (length q ≤ length q')%nat
           ∧ ∀ i t, q !! i = Some t → is_pending t = false → q' !! i = Some t).
Proof.
  intros Hload. split.
  - intros o. by apply run_op_continues.
  - intros os Hrun.
    destruct (run_ops_continues now os fs fs' q Hload Hrun) as (q' & Hload' & Hcont).
    exists q'. split; [done|]. split; [done|].
    destruct Hcont as (q1 & extra & -> & HF). split.
    + rewrite length_app, <- (Forall2_length _ _ _ HF). lia.
    + intros i t Hi Hnp.
      destruct (Forall2_lookup_l _ _ _ _ _ HF Hi) as (t' & Hi' & [->|[Hp _]]).
      * by apply lookup_app_l_Some.
      * congruence.
Qed.

Lemma status_monotone_witness :
  ∃ q', load_queue sample_clock
          (save_queue [set_status s_skipped (sample_topic "a.py");
                       set_status s_skipped (sample_topic "b.py");
                       set_status s_done (sample_topic "c.py");
                       sample_topic "d.py"]) = Ok q'
        ∧ continues topic_history sample_queue q'
        ∧ (length sample_queue ≤ length q')%nat
        ∧ ∀ i t, sample_queue !! i = Some t → is_pending t = false → q' !! i = Some t.
Proof.
  destruct (status_monotone sample_clock (save_queue sample_queue)
              (save_queue [set_status s_skipped (sample_topic "a.py");
                           set_status s_skipped (sample_topic "b.py");
                           set_status s_done (sample_topic "c.py");
                           sample_topic "d.py"])
              sample_queue eq_refl) as [_ H].
  apply (H [Skip 0; Add [sample_topic "d.py"; sample_topic "a.py"]; PopNext; PendingCount]).
  vm_compute. reflexivity.
Defined.

(** The claim of the design document is about every operation of the store,
    and save_queue is one: called with the empty sequence it removes a Topic
    that was done. *)
Lemma save_queue_counterexample :
  load_queue sample_clock (save_queue done_queue) = Ok done_queue
  ∧ load_queue sample_clock (save_queue []) = Ok []
  ∧ ¬ continues topic_history done_queue [].
Proof.
  split; [reflexivity|]. split; [reflexivity|].
  intros (q1 & extra & Heq & HF). symmetry in Heq.
  apply app_eq_nil in Heq as [-> _]. inversion HF.
Qed.

(** *** load_queue *)



Lemma comprehension_lookup {A B} (f : nat -> A -> outcome B) (i : nat) (l : list A)
    (q : list B) :
  comprehension f i l = Ok q →
  length q = length l
  ∧ ∀ j x, l !! j = Some x → ∃ y, q !! j = Some y ∧ f (i + j)%nat x = Ok y.
Proof.
  revert i q. induction l as [|a l IH]; intros i q; cbn [comprehension].
  - intros [= <-]. split; [done|]. intros j x. by rewrite lookup_nil.
  - intros (b & Hb & (bs & Hbs & [= <-])%bind_inv_Ok)%bind_inv_Ok.
    apply IH in Hbs as [Hlen Hbs]. split; [cbn; by rewrite Hlen|].
    intros [|j] x; cbn.
    + intros [= <-]. exists b. by rewrite Nat.add_0_r.
    + intros Hx. destruct (Hbs j x Hx) as (y & Hy & Hf). exists y. split; [done|].
      by rewrite <- Nat.add_succ_comm.
Qed.




(** *** save_queue after load_queue *)

Lemma Topic_init_fields (now : str) (item : pyval) (t : Topic) :
  Topic_init now item = Ok t → complete_record item →
  ∀ f, f ∈ field_names → field_of (asdict t) f = field_of item f.
Proof.
  destruct item as [| | | | |kw]; try discriminate. cbn [Topic_init].
  destruct (forallb _ kw); [|discriminate].
  intros Hinit Hall.
  destruct (Hall f_title) as [v1 H1]; [set_solver|].
  destruct (Hall f_kind) as [v2 H2]; [set_solver|].
  destruct (Hall f_target) as [v3 H3]; [set_solver|].
  destruct (Hall f_source) as [v4 H4]; [set_solver|].
  destruct (Hall f_status) as [v5 H5]; [set_solver|].
  destruct (Hall f_added) as [v6 H6]; [set_solver|].
  cbn [field_of] in *. rewrite H1, H2, H3, H4, H5, H6 in Hinit. cbn in Hinit.
  injection Hinit as <-. intros f Hf. unfold field_names in Hf.
  repeat (apply elem_of_cons in Hf as [->|Hf]; [by rewrite ?H1, ?H2, ?H3, ?H4, ?H5, ?H6|]).
  by apply elem_of_nil in Hf.
Qed.

(** C6, as the code has it.  What save_queue writes from a loaded sequence
    loads as that sequence again, whatever the time.  When every record of
    the file has all six fields, as in every file save_queue wrote, the
    rewritten file has the same number of records and each record has the
    same value in each of the six fields; on a file save_queue wrote the
    document itself is unchanged. *)
Theorem save_load_roundtrip (now now' : clock) (doc : pyval) (q : list Topic) :
  load_queue now (Holds doc) = Ok q →
  load_queue now' (save_queue q) = Ok q
  ∧ (∀ items, doc = PList items → Forall complete_record items →
       ∃ items', save_queue q = Holds (PList items')
         ∧ length items' = length items
         ∧ ∀ i item item' f, items !! i = Some item → items' !! i = Some item' →
             f ∈ field_names → field_of item' f = field_of item f)
  ∧ (∀ q0, doc = PList (map asdict q0) → save_queue q = Holds doc).
Proof.
  intros Hload. split; [apply load_save|]. split.
  - intros items -> Hcomplete. exists (map asdict q). split; [done|].
    cbn in Hload. apply comprehension_lookup in Hload as [Hlen Hlook].
    split; [by rewrite length_map|].
    intros i item item' f Hi Hi' Hf.
    destruct (Hlook i item Hi) as (t & Ht & Hinit).
    rewrite list_lookup_fmap, Ht in Hi'. injection Hi' as <-.
    eapply Topic_init_fields; [exact Hinit| |done].
    rewrite Forall_forall in Hcomplete. eapply Hcomplete, list_elem_of_lookup_2, Hi.
  - intros q0 ->. change (Holds (PList (map asdict q0))) with (save_queue q0) in Hload.
    rewrite load_save in Hload. by injection Hload as <-.
Qed.

Lemma save_load_roundtrip_witness :
  load_queue sample_clock (save_queue sample_queue) = Ok sample_queue
  ∧ save_queue sample_queue = Holds (PList (map asdict sample_queue)).
Proof.
  destruct (save_load_roundtrip sample_clock sample_clock
              (PList (map asdict sample_queue)) sample_queue eq_refl) as (H1 & _ & H3).
  split; [exact H1 | exact (H3 sample_queue eq_refl)].
Defined.

(** The claim of the design document fails on a loadable file whose record
    has no [added] field: after load_queue and save_queue the record has
    one, holding the time of the load (and a [source] and a [status]). *)
Lemma save_load_counterexample :
  ∃ q item',
    load_queue sample_clock (Holds (PList [partial_record])) = Ok q
    ∧ save_queue q = Holds (PList [item'])
    ∧ field_of partial_record f_added = None
    ∧ field_of item' f_added = Some (PStr (sample_clock 0%nat))
    ∧ save_queue q ≠ Holds (PList [partial_record]).
Proof.
  eexists _, _. split; [reflexivity|]. split; [reflexivity|].
  split; [reflexivity|]. split; [reflexivity|]. discriminate.
Qed.
End TopicsSpec.

(* ===================================================================== *)
(** * Properties of extract_symbol and get_repo_structure *)
(* ===================================================================== *)

Module GitUtilsSpec.
Import Py GitUtils GitUtilsDefs.

(** *** extract_symbol: the capturing state *)

(** C9, as the code has it.  While capturing, a blank line is emitted; so
    is a line indented more than base_indent.  A non-blank line indented
    base_indent or less that is not a comment line ends the loop before it
    is emitted, so that it and every later line stay out of the result.  A
    comment line indented base_indent or less does not end capturing: it is
    emitted and capturing goes on. *)
Theorem capturing_step (symbol line : str) (base_indent : nat) (res : list str) :
  let st := {| capturing := Some base_indent; result_lines := res |} in
  (lstrip line = [] → loop_body symbol line st = emit line base_indent res)
  ∧ (lstrip line ≠ [] → (base_indent < indent_of line)%nat →
       loop_body symbol line st = emit line base_indent res)
  ∧ (lstrip line ≠ [] → (indent_of line ≤ base_indent)%nat → is_comment line = false →
       loop_body symbol line st = Break st
       ∧ ∀ later, for_lines symbol (line :: later) st = st)
  ∧ (lstrip line ≠ [] → (indent_of line ≤ base_indent)%nat → is_comment line = true →
       loop_body symbol line st = emit line base_indent res).
Proof.
  cbn zeta. unfold loop_body at 1 2 4, emit, is_comment. cbn [capturing result_lines].
  destruct (lstrip line) as [|c stripped] eqn:Hstrip.
  - split; [done|]. by repeat split.
  - split; [done|]. split; [|split].
    + intros _ Hlt. by rewrite bool_decide_eq_false_2 by lia.
    + intros _ Hle Hc.
      assert (Hbody : loop_body symbol line
                        {| capturing := Some base_indent; result_lines := res |}
                      = Break {| capturing := Some base_indent; result_lines := res |}).
      { unfold loop_body. cbn [capturing]. rewrite Hstrip.
        rewrite bool_decide_eq_true_2 by lia. by rewrite Hc. }
      split; [exact Hbody|]. intros later. cbn [for_lines]. by rewrite Hbody.
    + intros _ Hle Hc. rewrite bool_decide_eq_true_2 by lia. by rewrite Hc.
Qed.

Lemma capturing_step_witness :
  loop_body (str_of "f") (str_of "y = 2") sample_state = Break sample_state
  ∧ loop_body (str_of "f") (str_of "# note") sample_state
    = emit (str_of "# note") 0 (result_lines sample_state)
  ∧ loop_body (str_of "f") (str_of "    x = 1") sample_state
    = emit (str_of "    x = 1") 0 (result_lines sample_state)
  ∧ loop_body (str_of "f") (str_of "  ") sample_state
    = emit (str_of "  ") 0 (result_lines sample_state).
Proof.
  destruct (capturing_step (str_of "f") (str_of "y = 2") 0 (result_lines sample_state))
    as (_ & _ & Hbreak & _).
  destruct (capturing_step (str_of "f") (str_of "# note") 0 (result_lines sample_state))
    as (_ & _ & _ & Hcomment).
  destruct (capturing_step (str_of "f") (str_of "    x = 1") 0 (result_lines sample_state))
    as (_ & Hdeep & _ & _).
  destruct (capturing_step (str_of "f") (str_of "  ") 0 (result_lines sample_state))
    as (Hblank & _ & _ & _).
  split; [|split; [|split]].
  - apply Hbreak; [discriminate | vm_compute; lia | reflexivity].
  - apply Hcomment; [discriminate | vm_compute; lia | reflexivity].
  - apply Hdeep; [discriminate | vm_compute; lia].
  - apply Hblank. reflexivity.
Defined.

(** The claim of the design document has a comment line at base indent end
    capturing.  It does not: the comment line is emitted, and so is the
    indented line after it. *)
Lemma comment_line_counterexample :
  (indent_of (str_of "# note") ≤ 0)%nat
  ∧ is_comment (str_of "# note") = true
  ∧ loop_body (str_of "f") (str_of "# note") sample_state
    = Continue {| capturing := Some 0%nat;
                  result_lines := [str_of "def f():"; str_of "    pass"; str_of "# note"] |}
  ∧ extract_symbol (Some commented_source) (str_of "f")
    = Some (join_lines [str_of "def f():"; str_of "    pass"; str_of "# note";
                        str_of "    x = 1"]).
Proof. vm_compute. repeat split; lia. Qed.

(** *** get_repo_structure: the entries of one directory *)

Lemma str_leb_refl (a : str) : str_leb a a = true.
Proof. induction a as [|x a IH]; [done|]. cbn. rewrite N.eqb_refl, IH. by rewrite orb_true_r. Qed.

Lemma str_leb_total (a b : str) : str_leb a b = true ∨ str_leb b a = true.
Proof.
  revert b. induction a as [|x a IH]; intros [|y b]; cbn; auto.
  destruct (N.ltb_spec x y); [by left|]. destruct (N.ltb_spec y x); [by right|].
  assert (x = y) as -> by lia. rewrite N.eqb_refl. cbn. apply IH.
Qed.

Lemma str_leb_trans (a b c : str) :
  str_leb a b = true → str_leb b c = true → str_leb a c = true.
Proof.
  revert b c. induction a as [|x a IH]; intros [|y b] [|z c]; cbn; try done.
  rewrite !orb_true_iff, !andb_true_iff, !N.ltb_lt, !N.eqb_eq.
  intros [Hxy|[Hxy Hab]] [Hyz|[Hyz Hbc]]; [left; lia..|].
  right. split; [lia | by eapply IH].
Qed.


#[global] Instance entry_le_total : Total entry_le.
Proof.
  intros e1 e2. unfold entry_le, key_leb, sort_key. cbn.
  destruct (is_dir e1), (is_dir e2); cbn; auto using str_leb_total.
Qed.

#[global] Instance entry_le_trans : Transitive entry_le.
Proof.
  intros e1 e2 e3. unfold entry_le, key_leb, sort_key. cbn.
  destruct (is_dir e1), (is_dir e2), (is_dir e3); cbn; eauto using str_leb_trans; done.
Qed.















(** With a depth of one the tree shows [src] and [README.md] and stops; with
    any greater depth it shows [app.py] under [src] too. *)
Lemma scenario_any_depth (max_depth : Z) :
  1 ≤ max_depth →
  get_repo_structure (str_of "repo") true scenario_root max_depth
  = if bool_decide (max_depth = 1)
    then join_lines [ str_of "repo/"; TEE ++ str_of "src"; LAST ++ str_of "README.md" ]
    else scenario_tree.
Proof.
  intros Hd. unfold get_repo_structure.
  destruct (Z.to_nat max_depth) as [|[|n]] eqn:Hn; [lia| |].
  - rewrite bool_decide_eq_true_2 by lia. vm_compute. reflexivity.
  - rewrite bool_decide_eq_false_2 by lia. vm_compute. reflexivity.
Qed.

End GitUtilsSpec.

(* ===================================================================== *)
(** * Properties of the matcher *)
(* ===================================================================== *)

Module ReSpec.
Import Py Re ReDefs.


Section Rep.
Context {R : Type}.
Implicit Types (k : bool -> str -> option R) (p : char -> bool).

Lemma rep_greedy_sound p lo b s k x :
  rep_greedy p lo b s k = Some x →
  ∃ w s' b', s = w ++ s' ∧ (lo ≤ length w)%nat ∧ forallb p w = true ∧ k b' s' = Some x.
Proof.
  revert lo b. induction s as [|c s IH]; intros lo b; cbn [rep_greedy].
  - destruct lo; [|done]. intros Hk. exists [], [], b. by repeat split.
  - assert (Hstop : match lo with O => k b (c :: s) | S _ => None end = Some x →
              ∃ w s' b', c :: s = w ++ s' ∧ (lo ≤ length w)%nat
                         ∧ forallb p w = true ∧ k b' s' = Some x).
    { destruct lo; [|done]. intros Hk. exists [], (c :: s), b. by repeat split. }
    destruct (p c) eqn:Hc; [|done].
    destruct (rep_greedy p (pred lo) _ s k) as [y|] eqn:Hrec; [|done].
    intros [= ->]. apply IH in Hrec as (w & s' & b' & -> & Hlo & Hw & Hk).
    exists (c :: w), s', b'. cbn. rewrite Hc, Hw. repeat split; [lia|done].
Qed.

Lemma rep_lazy_sound p lo b s k x :
  rep_lazy p lo b s k = Some x →
  ∃ w s' b', s = w ++ s' ∧ (lo ≤ length w)%nat ∧ forallb p w = true ∧ k b' s' = Some x.
Proof.
  revert lo b. induction s as [|c s IH]; intros lo b; cbn [rep_lazy].
  - destruct lo; [|done]. destruct (k b []) eqn:Hk; [|done].
    intros [= ->]. exists [], [], b. by repeat split.
  - assert (Hgo : (if p c then rep_lazy p (pred lo) (c =? NL)%N s k else None) = Some x →
              ∃ w s' b', c :: s = w ++ s' ∧ (lo ≤ length w)%nat
                         ∧ forallb p w = true ∧ k b' s' = Some x).
    { destruct (p c) eqn:Hc; [|done].
      intros (w & s' & b' & -> & Hlo & Hw & Hk)%IH.
      exists (c :: w), s', b'. cbn. rewrite Hc, Hw. repeat split; [lia|done]. }
    destruct lo; [|done]. destruct (k b (c :: s)) eqn:Hk; [|done].
    intros [= ->]. exists [], (c :: s), b. by repeat split.
Qed.






End Rep.

Lemma run_sound (r : re) {R : Type} (st : mstate) (k : mstate -> option R) (x : R) :
  run r st k = Some x →
  ∃ w st', rest st = w ++ rest st' ∧ lang r w ∧ k st' = Some x.
Proof.
  revert R st k x. induction r as [|p|g lo p|r1 IH1 r2 IH2|r1 IH1 r2 IH2|n r1 IH1|r1 IH1| | |];
    intros R st k x; cbn [run lang].
  - intros Hk. by exists [], st.
  - destruct (rest st) as [|c s'] eqn:Hs; [done|]. destruct (p c) eqn:Hc; [|done].
    intros Hk. eexists [c], _. split; [|split; [|exact Hk]]; [done|]. by exists c.
  - intros H.
    assert (∃ w s' b', rest st = w ++ s' ∧ (lo ≤ length w)%nat ∧ forallb p w = true
              ∧ k {| bol := b'; rest := s'; caps := caps st |} = Some x)
      as (w & s' & b' & Hs & Hlo & Hw & Hk).
    { destruct g; [by apply rep_greedy_sound in H | by apply rep_lazy_sound in H]. }
    eexists w, _. split; [|split; [|exact Hk]]; done.
  - intros (w1 & st1 & Hs1 & Hw1 & (w2 & st2 & Hs2 & Hw2 & Hk)%IH2)%IH1.
    exists (w1 ++ w2), st2. split; [by rewrite Hs1, Hs2, app_assoc|].
    split; [by exists w1, w2|done].
  - destruct (run r1 st k) as [y|] eqn:H1.
    + intros [= ->]. apply IH1 in H1 as (w & st' & ? & ? & ?). exists w, st'. auto.
    + intros (w & st' & ? & ? & ?)%IH2. exists w, st'. auto.
  - intros (w & st' & Hs & Hw & Hk)%IH1. eexists w, _. split; [|split; [|exact Hk]]; done.
  - destruct (run r1 st Some) as [st1|]; [|done]. intros Hk.
    eexists [], _. split; [|split; [|exact Hk]]; done.
  - destruct (bol st); [|done]. intros Hk. by exists [], st.
  - intros Hk. exists [], st. split; [done|]. split; [done|].
    destruct (rest st) as [|c s]; [done|]. by destruct (c =? NL)%N.
  - destruct (rest st) eqn:Hs; [|done]. intros Hk. exists [], st. by rewrite Hs.
Qed.


(** *** search and finditer *)



(** *** The equations of [run], one constructor at a time *)





Lemma run_bol {R} (st : mstate) (k : mstate -> option R) :
  run Bol st k = if bol st then k st else None.
Proof. reflexivity. Qed.

(** *** finditer with a pattern that starts with [^] *)

Section Anchored.
Variable r : re.
Hypothesis anchored : ∀ s, match_at r false s = None.

Lemma finditer_from_inside_line (line after : str) :
  NL ∉ line →
  finditer_from r false (line ++ NL :: after) 0 = finditer_from r true after 0.
Proof using anchored.
  induction line as [|c line IH]; intros Hnl; cbn [app finditer_from].
  - by rewrite anchored, N.eqb_refl.
  - rewrite anchored. apply not_elem_of_cons in Hnl as [Hc Hnl].
    apply N.eqb_neq in Hc. rewrite N.eqb_sym in Hc. rewrite Hc. by apply IH.
Qed.

Lemma finditer_from_last_line (line : str) :
  NL ∉ line → finditer_from r false line 0 = [].
Proof using anchored.
  induction line as [|c line IH]; intros Hnl; cbn [finditer_from].
  - by rewrite anchored.
  - rewrite anchored. apply not_elem_of_cons in Hnl as [Hc Hnl].
    apply N.eqb_neq in Hc. rewrite N.eqb_sym in Hc. rewrite Hc. by apply IH.
Qed.

(** A line at which no match starts is passed over. *)
Lemma finditer_skip_line (line after : str) :
  NL ∉ line → match_at r true (line ++ NL :: after) = None →
  finditer r (line ++ NL :: after) = finditer r after.
Proof using anchored.
  intros Hnl Hm. unfold finditer. destruct line as [|c line]; cbn [app finditer_from] in *.
  - by rewrite Hm, N.eqb_refl.
  - rewrite Hm. apply not_elem_of_cons in Hnl as [Hc Hnl].
    apply N.eqb_neq in Hc. rewrite N.eqb_sym in Hc. rewrite Hc.
    by apply finditer_from_inside_line.
Qed.

Lemma finditer_skip_last_line (line : str) :
  NL ∉ line → match_at r true line = None → finditer r line = [].
Proof using anchored.
  intros Hnl Hm. unfold finditer. destruct line as [|c line]; cbn [finditer_from].
  - by rewrite Hm.
  - rewrite Hm. apply not_elem_of_cons in Hnl as [Hc Hnl].
    apply N.eqb_neq in Hc. rewrite N.eqb_sym in Hc. rewrite Hc.
    by apply finditer_from_last_line.
Qed.

End Anchored.

(** Two ways to split one text into a run of a class and a character
    outside it are the same way. *)
Lemma span_unique (p : char -> bool) (w1 w2 : str) (c1 c2 : char) (t1 t2 : str) :
  w1 ++ c1 :: t1 = w2 ++ c2 :: t2 →
  forallb p w1 = true → forallb p w2 = true → p c1 = false → p c2 = false →
  w1 = w2 ∧ c1 = c2 ∧ t1 = t2.
Proof.
  revert w2. induction w1 as [|a w1 IH]; intros [|b w2]; cbn.
  - by intros [= -> ->].
  - intros [= -> _] _ [Hb _]%andb_true_iff Hc1. congruence.
  - intros [= -> _] [Ha _]%andb_true_iff _ _ Hc2. congruence.
  - intros [= -> Heq] [_ H1]%andb_true_iff [_ H2]%andb_true_iff Hc1 Hc2.
    destruct (IH _ Heq H1 H2 Hc1 Hc2) as (-> & -> & ->). done.
Qed.


End ReSpec.

(* ===================================================================== *)
(** * Properties of the parser of generated text *)
(* ===================================================================== *)

Module ParserSpec.
Import Py Re Topics Parser TopicsDefs ReDefs ParserDefs ReSpec.


Section Patterns.
Variable U : unicode.










(** *** Where the heading ends *)



(** *** The section is determined *)













End Patterns.

Section Section_region.
Variable U : unicode.



End Section_region.


Section Topic_lines.
Variable U : unicode.

Lemma line_pattern_anchored (s : str) : match_at (TOPIC_LINE_PATTERN U) false s = None.
Proof. reflexivity. Qed.

(** What a match of the line pattern starts with: a bullet marker,
    whitespace, a bracketed word, whitespace, a backtick. *)
Lemma line_pattern_sound (b : bool) (s : str) (m : mstate) :
  match_at (TOPIC_LINE_PATTERN U) b s = Some m →
  ∃ c ws k ws' more,
    s = c :: ws ++ LBRACKET :: k ++ RBRACKET :: ws' ++ BACKTICK :: more
    ∧ forallb isspace ws = true ∧ forallb (isword U) k = true
    ∧ forallb isspace ws' = true.
Proof.
  intros (w & st' & Hs & Hw & _)%run_sound. cbn [rest] in Hs.
  unfold TOPIC_LINE_PATTERN, seq in Hw. cbn [foldr lang] in Hw.
  destruct Hw as (w0 & x0 & -> & -> & Hw).
  destruct Hw as (w1 & x1 & -> & (c & -> & _) & Hw).
  destruct Hw as (ws & x2 & -> & [_ Hws] & Hw).
  destruct Hw as (w3 & x3 & -> & (c3 & -> & <-%N.eqb_eq) & Hw).
  destruct Hw as (k & x4 & -> & [_ Hk] & Hw).
  destruct Hw as (w5 & x5 & -> & (c5 & -> & <-%N.eqb_eq) & Hw).
  destruct Hw as (ws' & x6 & -> & [_ Hws'] & Hw).
  destruct Hw as (w7 & x7 & -> & (c7 & -> & <-%N.eqb_eq) & _).
  exists c, ws, k, ws', (x7 ++ rest st'). split; [|done].
  rewrite Hs. cbn [app]. repeat (rewrite <- app_assoc; cbn [app]). done.
Qed.

Lemma no_match_lacks_kind (line after : str) :
  lacks_kind line → match_at (TOPIC_LINE_PATTERN U) true (line ++ after) = None.
Proof.
  intros (c & ws & x & tail & -> & Hws & Hx & Hneq).
  destruct (match_at _ true _) as [m|] eqn:Hm; [|done]. exfalso.
  apply line_pattern_sound in Hm as (c' & ws1 & k & ws' & more & Heq & Hws1 & _).
  cbn [app] in Heq. repeat (rewrite <- app_assoc in Heq; cbn [app] in Heq).
  injection Heq as _ Heq.
  by destruct (span_unique isspace _ _ _ _ _ _ Heq Hws Hws1 Hx eq_refl) as (_ & ? & _).
Qed.

Lemma no_match_lacks_target (line after : str) :
  lacks_target U line → match_at (TOPIC_LINE_PATTERN U) true (line ++ after) = None.
Proof.
  intros (c & ws & k & ws' & x & tail & -> & Hws & Hk & Hws' & Hx & Hneq).
  destruct (match_at _ true _) as [m|] eqn:Hm; [|done]. exfalso.
  apply line_pattern_sound in Hm as (c' & ws1 & k1 & ws1' & more & Heq & Hws1 & Hk1 & Hws1').
  cbn [app] in Heq. repeat (rewrite <- app_assoc in Heq; cbn [app] in Heq).
  injection Heq as _ Heq.
  destruct (span_unique isspace _ _ _ _ _ _ Heq Hws Hws1 eq_refl eq_refl) as (_ & _ & Heq2).
  destruct (span_unique (isword U) _ _ _ _ _ _ Heq2 Hk Hk1 eq_refl eq_refl) as (_ & _ & Heq3).
  by destruct (span_unique isspace _ _ _ _ _ _ Heq3 Hws' Hws1' Hx eq_refl) as (_ & ? & _).
Qed.

End Topic_lines.

Section Topic_kinds.
Variable U : unicode.


Lemma general_is_kind : str_of "general" ∈ TOPIC_KINDS.
Proof. by apply (bool_decide_unpack _). Qed.

(** What holds of every match, and of a line the section text starts with.
    The kind of the Topic made from a match is the bracketed token in lower
    case when that is one of file, function, repo, diff, general, and
    general otherwise; every match gives a Topic, none is rejected for its
    kind.  When the section text starts with a line on which something
    other than an opening bracket follows the bullet marker, or something
    other than a backtick follows the bracketed kind, no match starts on
    that line, and the Topics are those of the text below it. *)
Theorem topic_lines (now : clock) (source : str) :
  (∀ nowstr m,
     ∃ k, kind (topic_of_match U nowstr source m) = PStr k
       ∧ k ∈ TOPIC_KINDS
       ∧ (lower U (group 1 (caps m)) ∈ TOPIC_KINDS → k = lower U (group 1 (caps m)))
       ∧ (lower U (group 1 (caps m)) ∉ TOPIC_KINDS → k = str_of "general"))
  ∧ (∀ s, length (topics_of_section U now source s)
          = length (finditer (TOPIC_LINE_PATTERN U) s))
  ∧ (∀ line after, NL ∉ line → lacks_kind line ∨ lacks_target U line →
       topics_of_section U now source (line ++ NL :: after)
       = topics_of_section U now source after)
  ∧ (∀ line, NL ∉ line → lacks_kind line ∨ lacks_target U line →
       topics_of_section U now source line = []).
Proof.
  split; [|split; [|split]].
  - intros nowstr m. unfold topic_of_match. cbn [kind].
    destruct (decide (lower U (group 1 (caps m)) ∈ TOPIC_KINDS)) as [Hin|Hout].
    + exists (lower U (group 1 (caps m))). rewrite bool_decide_eq_false_2 by auto.
      split; [done|]. split; [done|]. split; [done|]. by intros ?.
    + exists (str_of "general"). rewrite bool_decide_eq_true_2 by done.
      split; [done|]. split; [apply general_is_kind|]. split; [by intros ?|done].
  - intros s. unfold topics_of_section. apply length_imap.
  - intros line after Hnl Hbad. unfold topics_of_section.
    rewrite (finditer_skip_line _ (line_pattern_anchored U)); [done..|].
    destruct Hbad; [by apply no_match_lacks_kind | by apply no_match_lacks_target].
  - intros line Hnl Hbad. unfold topics_of_section.
    rewrite (finditer_skip_last_line _ (line_pattern_anchored U)); [done..|].
    rewrite <- (app_nil_r line).
    destruct Hbad; [by apply no_match_lacks_kind | by apply no_match_lacks_target].
Qed.

End Topic_kinds.

Lemma topic_lines_witness :
  topics_of_section ascii_only sample_clock []
    (join_lines [line_without_kind; line_without_target; line_with_unknown_kind])
  = [ {| title := PStr (str_of "desc2"); kind := PStr (str_of "general");
         target := PStr (str_of "b"); source := PStr [];
         status := PStr s_pending; added := PStr (sample_clock 0%nat) |} ].
Proof.
  destruct (topic_lines ascii_only sample_clock []) as (_ & _ & Hskip & _).
  change (join_lines [line_without_kind; line_without_target; line_with_unknown_kind])
    with (line_without_kind ++ NL :: line_without_target ++ NL :: line_with_unknown_kind).
  rewrite Hskip, Hskip; [reflexivity|..].
  - by apply (bool_decide_unpack _).
  - right. exists 45%N, [32%N], (str_of "file"), [32%N], 97%N, (str_of ".py - desc").
    by repeat split.
  - by apply (bool_decide_unpack _).
  - left. exists 45%N, [32%N], BACKTICK, (str_of "a.py` - desc"). by repeat split.
Defined.

Lemma parser_scenario (U : unicode) :
  map (fun t => (kind t, target t, title t))
      (parse_topics_from_response U sample_clock scenario_text [])
  = [ (PStr (str_of "file"), PStr (str_of "a.py"), PStr (str_of "desc"));
      (PStr (str_of "general"), PStr (str_of "b"), PStr (str_of "desc2")) ].
Proof. vm_compute. reflexivity. Qed.

(** C8.  The whitespace classes of the line pattern match line breaks, so a
    match can run over more than one line.  A bullet line that stops after
    its kind has no backtick-delimited target, and is matched together with
    the line below it.  A line on which something other than a backtick
    follows the bracketed kind is not passed over when the bullet line above
    it stops after its separator: it becomes the title of that Topic. *)
Lemma bullet_across_lines (U : unicode) :
  (BACKTICK ∉ str_of "- [file]")
  ∧ map (fun t => (kind t, target t, title t))
      (parse_topics_from_response U sample_clock split_bullet_text [])
    = [ (PStr (str_of "file"), PStr (str_of "a.py"), PStr (str_of "desc")) ]
  ∧ lacks_target U (str_of "- [repo] nope - y")
  ∧ map (fun t => (kind t, target t, title t))
      (parse_topics_from_response U sample_clock swallowed_line_text [])
    = [ (PStr (str_of "file"), PStr (str_of "a"), PStr (str_of "- [repo] nope - y"));
        (PStr (str_of "diff"), PStr (str_of "d"), PStr (str_of "z")) ].
Proof.
  split; [by apply (bool_decide_unpack _)|]. split; [vm_compute; reflexivity|].
  split; [|vm_compute; reflexivity].
  exists 45%N, [32%N], (str_of "repo"), [32%N], 110%N, (str_of "ope - y").
  by repeat split.
Qed.


(** The bullet below the deeper heading that comes right after the blank
    line is read; the one below the next heading is not. *)
Lemma blank_line_scenario (U : unicode) :
  map target (parse_topics_from_response U sample_clock blank_line_text [])
  = [PStr (str_of "a")].
Proof. vm_compute. reflexivity. Qed.
End ParserSpec.

(* ===================================================================== *)
(** * Further properties of the persisted queue *)
(* ===================================================================== *)

Module QueueLaws.
Import Py Topics TopicsDefs MoreDefs TopicsSpec.


(** *** The count of pending Topics *)

Lemma pending_count_loaded (now : clock) (fs : file) (q : list Topic) :
  load_queue now fs = Ok q → pending_count now fs = Ok (length (pending q)).
Proof. intros Hload. unfold pending_count. by rewrite Hload. Qed.

(** X1.  On a loadable queue pop_next takes exactly one Topic out of the
    pending ones when it returns a Topic, and none when it returns None,
    which it does exactly when nothing is pending. *)
Theorem pop_next_count (now : clock) (fs : file) (queue : list Topic) :
  load_queue now fs = Ok queue →
  ∃ r fs', pop_next now fs = Ok (r, fs')
    ∧ (r = None ↔ pending queue = [])
    ∧ pending_count now fs'
      = Ok (length (pending queue) - (match r with Some _ => 1 | None => 0 end))%nat.
Proof.
  intros Hload. destruct (pop_next_spec now fs queue Hload) as [Hnone Hsome].
  destruct (pending queue) as [|t ts] eqn:Hp.
  - exists None, fs. split; [by apply Hnone|]. split; [done|].
    rewrite (pending_count_loaded now fs queue Hload), Hp. done.
  - destruct (pending_split _ _ _ Hp) as (pre & post & -> & Hpre & Ht & Hpost).
    eexists _, _. split; [by apply Hsome|]. split; [done|].
    rewrite (pending_count_loaded _ _ _ (load_save _ _)).
    rewrite pending_app, pending_cons, is_pending_set_done, Hpre, Hpost. cbn. f_equal. lia.
Qed.

Lemma pop_next_count_witness :
  ∃ r fs', pop_next sample_clock (save_queue sample_queue) = Ok (r, fs')
    ∧ (r = None ↔ pending sample_queue = [])
    ∧ pending_count sample_clock fs'
      = Ok (length (pending sample_queue) - (match r with Some _ => 1 | None => 0 end))%nat.
Proof. apply (pop_next_count sample_clock (save_queue sample_queue) sample_queue). reflexivity. Defined.

(** X2.  On a loadable queue skip_topic returns True exactly when the index
    is at least 0 and less than the number of pending Topics, and then the
    number of pending Topics goes down by one; otherwise it stays. *)
Theorem skip_topic_count (now : clock) (fs : file) (queue : list Topic) (index : Z) :
  load_queue now fs = Ok queue →
  ∃ b fs', skip_topic now fs index = Ok (b, fs')
    ∧ (b = true ↔ 0 ≤ index < Z.of_nat (length (pending queue)))
    ∧ pending_count now fs'
      = Ok (length (pending queue) - (if b then 1 else 0))%nat.
Proof.
  intros Hload.
  destruct (decide (0 ≤ index < Z.of_nat (length (pending queue)))) as [Hin|Hout].
  - destruct (pending_nth_split queue (Z.to_nat index)) as (pre & t & post & -> & Hpre & Ht);
      [lia|].
    exists true, (save_queue (pre ++ set_status s_skipped t :: post)). split; [|split; [done|]].
    + replace index with (Z.of_nat (length (pending pre))) by lia.
      by apply skip_topic_in_range.
    + rewrite (pending_count_loaded _ _ _ (load_save _ _)).
      rewrite !pending_app, !pending_cons, is_pending_set_skipped, Ht, !length_app.
      cbn. f_equal. lia.
  - exists false, fs. split; [|split].
    + apply (skip_topic_out_of_range now fs queue index Hload). lia.
    + split; [done|]. intros ?. by destruct Hout.
    + rewrite (pending_count_loaded now fs queue Hload). f_equal. lia.
Qed.

Lemma skip_topic_count_witness :
  ∃ b fs', skip_topic sample_clock (save_queue sample_queue) 1 = Ok (b, fs')
    ∧ (b = true ↔ 0 ≤ 1 < Z.of_nat (length (pending sample_queue)))
    ∧ pending_count sample_clock fs'
      = Ok (length (pending sample_queue) - (if b then 1 else 0))%nat.
Proof. apply (skip_topic_count sample_clock (save_queue sample_queue) sample_queue). reflexivity. Defined.

(** *** add_topics: counts, repetition, distinct targets, unhashable targets *)

Lemma same_target_true (t u : Topic) :
  same_target t u = true ↔ hashable t ∧ hash_key (target t) = hash_key (target u).
Proof.
  unfold same_target, hashable.
  destruct (hash_key (target t)) as [a|e], (hash_key (target u)) as [b|e'];
    rewrite ?bool_decide_eq_true; split; try (intros [[k [=]] [=]]); try done;
    try (intros ->; eauto); try (by intros [_ [= ->]]).
Qed.

Lemma is_new_keys (seen : list Topic) (t : Topic) :
  hashable t →
  is_new seen [] 0 t = true ↔ hash_key (target t) ∉ keys seen.
Proof.
  intros Ht. unfold is_new, keys. cbn [take]. rewrite app_nil_r, forallb_forall. split.
  - intros Hall (u & Heq & Hu)%list_elem_of_fmap.
    apply list_elem_of_In, Hall, negb_true_iff in Hu.
    apply not_true_iff_false in Hu. apply Hu, same_target_true.
    split; [|done]. destruct Ht as [k Hk]. exists k. congruence.
  - intros Hnot u Hu%list_elem_of_In. apply negb_true_iff, not_true_iff_false.
    intros [_ Heq]%same_target_true. apply Hnot, list_elem_of_fmap. eauto.
Qed.

Lemma not_new_keys (seen : list Topic) (t : Topic) :
  is_new seen [] 0 t = false → hash_key (target t) ∈ keys seen.
Proof.
  unfold is_new, keys. cbn [take]. rewrite app_nil_r.
  intros (u & Hu & [_ Heq]%negb_false_iff%same_target_true)%forallb_false_elem.
  rewrite <- Heq. apply list_elem_of_fmap. eauto.
Qed.

Lemma keys_app (l1 l2 : list Topic) : keys (l1 ++ l2) = keys l1 ++ keys l2.
Proof. apply map_app. Qed.

Lemma keys_snoc_incl (l1 l2 : list Topic) (t : Topic) :
  keys l1 ⊆ keys l2 → keys (l1 ++ [t]) ⊆ keys (l2 ++ [t]).
Proof.
  intros Hsub k. rewrite !keys_app, !elem_of_app. intros [Hk|Hk]; [left; by apply Hsub|by right].
Qed.

Lemma keys_snoc_known (l1 l2 : list Topic) (t : Topic) :
  keys l1 ⊆ keys l2 → hash_key (target t) ∈ keys l2 → keys (l1 ++ [t]) ⊆ keys l2.
Proof.
  intros Hsub Ht k. rewrite keys_app, elem_of_app. intros [Hk|Hk]; [by apply Hsub|].
  cbn in Hk. apply list_elem_of_singleton in Hk. by subst k.
Qed.

Lemma keys_incl_snoc (l1 l2 : list Topic) (t : Topic) :
  keys l1 ⊆ keys l2 → keys l1 ⊆ keys (l2 ++ [t]).
Proof. intros Hsub k Hk. rewrite keys_app, elem_of_app. left. by apply Hsub. Qed.

Lemma appended_subset (seen topics : list Topic) (t : Topic) :
  t ∈ appended seen topics → t ∈ topics.
Proof.
  revert seen. induction topics as [|u ts IH]; intros seen; [by rewrite appended_nil|].
  rewrite appended_cons, elem_of_app, elem_of_cons.
  intros [Hhd|Htl]; [|right; by eapply IH].
  destruct (is_new seen [] 0 u); [|by apply elem_of_nil in Hhd].
  apply list_elem_of_singleton in Hhd. by left.
Qed.

(** After the loop the targets of all the input Topics are stored. *)
Lemma appended_covers (topics queue seen : list Topic) :
  Forall hashable topics → keys seen ⊆ keys queue →
  keys (seen ++ topics) ⊆ keys (queue ++ appended seen topics).
Proof.
  revert queue seen. induction topics as [|t ts IH]; intros queue seen Hts Hsub.
  - rewrite appended_nil, !app_nil_r. done.
  - apply Forall_cons in Hts as [Ht Hts]. rewrite appended_cons.
    replace (seen ++ t :: ts) with ((seen ++ [t]) ++ ts) by by rewrite <- app_assoc.
    destruct (is_new seen [] 0 t) eqn:Hnew.
    + replace (queue ++ [t] ++ appended (seen ++ [t]) ts)
        with ((queue ++ [t]) ++ appended (seen ++ [t]) ts) by by rewrite <- app_assoc.
      apply IH; [done|]. by apply keys_snoc_incl.
    + cbn [app]. apply IH; [done|]. apply keys_snoc_known; [done|].
      by apply Hsub, not_new_keys.
Qed.

Lemma appended_none (topics seen : list Topic) :
  Forall hashable topics → keys topics ⊆ keys seen → appended seen topics = [].
Proof.
  revert seen. induction topics as [|t ts IH]; intros seen Hts Hsub; [done|].
  apply Forall_cons in Hts as [Ht Hts]. rewrite appended_cons.
  destruct (is_new seen [] 0 t) eqn:Hnew.
  - apply (is_new_keys seen t Ht) in Hnew. exfalso. apply Hnew, Hsub. cbn. by left.
  - cbn [app]. apply IH; [done|]. apply keys_incl_snoc.
    intros k Hk. apply Hsub. cbn. by right.
Qed.

Lemma appended_distinct (topics queue seen : list Topic) :
  Forall hashable topics → keys queue ⊆ keys seen → NoDup (keys queue) →
  NoDup (keys (queue ++ appended seen topics)).
Proof.
  revert queue seen. induction topics as [|t ts IH]; intros queue seen Hts Hsub Hnd.
  - by rewrite appended_nil, app_nil_r.
  - apply Forall_cons in Hts as [Ht Hts]. rewrite appended_cons.
    destruct (is_new seen [] 0 t) eqn:Hnew.
    + replace (queue ++ [t] ++ appended (seen ++ [t]) ts)
        with ((queue ++ [t]) ++ appended (seen ++ [t]) ts) by by rewrite <- app_assoc.
      apply (is_new_keys seen t Ht) in Hnew.
      apply IH; [done|by apply keys_snoc_incl|].
      rewrite keys_app. apply NoDup_app. split; [done|]. split.
      * intros k Hk. cbn. rewrite list_elem_of_singleton. intros ->. by apply Hnew, Hsub.
      * cbn. apply NoDup_singleton.
    + cbn [app]. apply IH; [done| |done]. by apply keys_incl_snoc.
Qed.

Lemma add_topics_result (now : clock) (fs : file) (queue topics : list Topic) :
  load_queue now fs = Ok queue → Forall hashable queue → Forall hashable topics →
  add_topics now fs topics
  = Ok (length (appended queue topics),
        match appended queue topics with
        | [] => fs
        | _ :: _ => save_queue (queue ++ appended queue topics)
        end).
Proof.
  intros Hload Hq Hts. unfold add_topics. rewrite Hload, bind_Ok.
  destruct (target_set_spec queue Hq) as (s & -> & Hs). rewrite bind_Ok.
  rewrite (add_loop_spec topics queue queue s 0) by done. rewrite bind_Ok.
  cbn [fst snd]. destruct (appended queue topics); cbn; [done|].
  by rewrite bool_decide_eq_true_2.
Qed.

(** The file after add_topics loads as the queue followed by what was
    appended. *)
Lemma add_topics_loaded (now : clock) (fs : file) (queue topics : list Topic) :
  load_queue now fs = Ok queue →
  load_queue now (match appended queue topics with
                  | [] => fs
                  | _ :: _ => save_queue (queue ++ appended queue topics)
                  end)
  = Ok (queue ++ appended queue topics).
Proof.
  intros Hload. destruct (appended queue topics) eqn:Hnew.
  - by rewrite app_nil_r.
  - apply load_save.
Qed.

(** X3.  On a loadable queue with hashable targets add_topics raises the
    number of pending Topics by the number of appended Topics that are
    pending (an input Topic keeps the status it comes with). *)
Theorem add_topics_count (now : clock) (fs : file) (queue topics : list Topic) :
  load_queue now fs = Ok queue → Forall hashable queue → Forall hashable topics →
  ∃ n fs', add_topics now fs topics = Ok (n, fs')
    ∧ n = length (appended queue topics)
    ∧ pending_count now fs'
      = Ok (length (pending queue) + length (pending (appended queue topics)))%nat.
Proof.
  intros Hload Hq Hts. eexists _, _. split; [by apply add_topics_result|].
  split; [done|].
  rewrite (pending_count_loaded _ _ _ (add_topics_loaded now fs queue topics Hload)).
  by rewrite pending_app, length_app.
Qed.

Lemma add_topics_count_witness :
  ∃ n fs',
    add_topics sample_clock (save_queue sample_queue)
      [sample_topic "d.py"; set_status s_done (sample_topic "e.py"); sample_topic "a.py"]
    = Ok (n, fs')
    ∧ n = 2%nat
    ∧ pending_count sample_clock fs' = Ok 3%nat.
Proof.
  apply (add_topics_count sample_clock (save_queue sample_queue) sample_queue
           [sample_topic "d.py"; set_status s_done (sample_topic "e.py"); sample_topic "a.py"]).
  - reflexivity.
  - repeat constructor; eexists; reflexivity.
  - repeat constructor; eexists; reflexivity.
Defined.

(** X4.  Adding the same Topics a second time appends nothing: the second
    add_topics returns 0 and leaves the file as the first one left it. *)
Theorem add_topics_twice (now : clock) (fs : file) (queue topics : list Topic) :
  load_queue now fs = Ok queue → Forall hashable queue → Forall hashable topics →
  ∃ n fs', add_topics now fs topics = Ok (n, fs')
    ∧ add_topics now fs' topics = Ok (0%nat, fs').
Proof.
  intros Hload Hq Hts. eexists _, _. split; [by apply add_topics_result|].
  pose proof (add_topics_loaded now fs queue topics Hload) as Hload'.
  assert (Hq' : Forall hashable (queue ++ appended queue topics)).
  { apply Forall_app. split; [done|]. rewrite Forall_forall in *.
    intros t Ht%appended_subset. auto. }
  rewrite (add_topics_result now _ _ topics Hload' Hq' Hts).
  rewrite (appended_none topics (queue ++ appended queue topics)); [done|done|].
  intros k Hk. apply (appended_covers topics queue queue Hts); [done|].
  rewrite keys_app, elem_of_app. by right.
Qed.

Lemma add_topics_twice_witness :
  ∃ n fs',
    add_topics sample_clock Absent [sample_topic "a.py"; sample_topic "a.py"] = Ok (n, fs')
    ∧ add_topics sample_clock fs' [sample_topic "a.py"; sample_topic "a.py"]
      = Ok (0%nat, fs').
Proof.
  apply (add_topics_twice sample_clock Absent [] [sample_topic "a.py"; sample_topic "a.py"]).
  - reflexivity.
  - constructor.
  - repeat constructor; eexists; reflexivity.
Defined.

Lemma distinct_same_targets (q q' : list Topic) :
  map target q' = map target q → distinct_targets q → distinct_targets q'.
Proof.
  intros Heq [Hh Hnd]. unfold distinct_targets, keys, hashable in *.
  rewrite <- (map_map target hash_key) in *.
  rewrite Forall_forall in Hh. rewrite Heq. split; [|done].
  apply Forall_forall. intros t Ht.
  assert (target t ∈ map target q) as (u & -> & Hu)%list_elem_of_fmap.
  { rewrite <- Heq. by apply list_elem_of_fmap_2. }
  by apply Hh.
Qed.

Lemma pop_loop_targets (queue : list Topic) (t : Topic) (queue' : list Topic) :
  pop_loop queue = Some (t, queue') → map target queue' = map target queue.
Proof.
  revert queue'. induction queue as [|u queue IH]; intros queue'; [done|].
  cbn [pop_loop]. destruct (is_pending u).
  - by intros [= <- <-].
  - destruct (pop_loop queue) as [[r q1]|]; [|done]. cbn. intros [= <- <-].
    cbn. f_equal. by apply IH.
Qed.

Lemma alter_status_targets (s : str) (p : nat) (queue : list Topic) :
  map target (alter (set_status s) p queue) = map target queue.
Proof.
  revert p. induction queue as [|u queue IH]; intros [|p]; cbn; f_equal; auto.
Qed.

Lemma run_op_distinct (now : clock) (fs fs' : file) (o : op) (q : list Topic) :
  load_queue now fs = Ok q → distinct_targets q →
  (∀ topics, o = Add topics → Forall hashable topics) →
  run_op now fs o = Ok fs' →
  ∃ q', load_queue now fs' = Ok q' ∧ distinct_targets q'.
Proof.
  intros Hload Hd Hin. destruct o as [topics| |index| |]; cbn [run_op].
  - destruct Hd as [Hh Hnd]. specialize (Hin topics eq_refl).
    rewrite (add_topics_result now fs q topics Hload Hh Hin), bind_Ok. cbn [snd].
    intros [= <-]. exists (q ++ appended q topics). split; [by apply add_topics_loaded|].
    split; [|by apply appended_distinct].
    apply Forall_app. split; [done|]. rewrite Forall_forall in *.
    intros t Ht%appended_subset. auto.
  - unfold pop_next. rewrite Hload, bind_Ok.
    destruct (pop_loop q) as [[t q1]|] eqn:Hpop; cbn; intros [= <-].
    + exists q1. split; [apply load_save|].
      eapply distinct_same_targets; [|done]. by eapply pop_loop_targets.
    + by exists q.
  - unfold skip_topic. rewrite Hload, bind_Ok. cbn zeta.
    destruct (bool_decide _); [cbn; intros [= <-]; by exists q|].
    destruct (pending_from 0 q !! Z.to_nat index) as [p|]; cbn; intros [= <-].
    + eexists. split; [apply load_save|].
      eapply distinct_same_targets; [|done]. apply alter_status_targets.
    + by exists q.
  - intros (_ & _ & [= <-])%bind_inv_Ok. by exists q.
  - intros (_ & _ & [= <-])%bind_inv_Ok. by exists q.
Qed.

(** X5.  Distinct targets are an invariant of the store: when the stored
    targets are hashable and pairwise different, they still are after any
    sequence of add_topics (with hashable input targets), pop_next,
    skip_topic, pending_count and load_queue.  A queue that starts with no
    file never holds two Topics with equal targets. *)
Theorem targets_stay_distinct (now : clock) (os : list op) (fs fs' : file)
    (q : list Topic) :
  load_queue now fs = Ok q → distinct_targets q → hashable_inputs os →
  run_ops now fs os = Ok fs' →
  ∃ q', load_queue now fs' = Ok q' ∧ distinct_targets q'.
Proof.
  revert fs q. induction os as [|o os IH]; intros fs q Hload Hd Hin; cbn [run_ops].
  - intros [= <-]. by exists q.
  - intros (fs1 & Hop & Hrest)%bind_inv_Ok.
    destruct (run_op_distinct now fs fs1 o q Hload Hd) as (q1 & Hload1 & Hd1); [|done|].
    { intros topics ->. apply Hin. by left. }
    apply (IH fs1 q1 Hload1 Hd1); [|done].
    intros topics Ht. apply Hin. by right.
Qed.

Lemma targets_stay_distinct_witness :
  ∃ q', load_queue sample_clock
          (save_queue [set_status s_done (sample_topic "a.py"); sample_topic "b.py"]) = Ok q'
        ∧ distinct_targets q'.
Proof.
  apply (targets_stay_distinct sample_clock
           [Add [sample_topic "a.py"; sample_topic "b.py"; sample_topic "a.py"];
            PopNext; Add [sample_topic "b.py"]] Absent _ []).
  - reflexivity.
  - split; constructor.
  - intros topics Hin. repeat (apply elem_of_cons in Hin as [Heq|Hin];
      [try discriminate; injection Heq as ->; repeat constructor; eexists; reflexivity|]).
    by apply elem_of_nil in Hin.
  - vm_compute. reflexivity.
Defined.

Lemma hash_key_raises (t : Topic) :
  ¬ hashable t → hash_key (target t) = Raise TypeError.
Proof.
  unfold hashable. intros Hbad. destruct (target t); cbn; try done;
    exfalso; apply Hbad; eexists; reflexivity.
Qed.

Lemma hash_key_cases (t : Topic) :
  hashable t ∨ hash_key (target t) = Raise TypeError.
Proof.
  unfold hashable. destruct (target t); cbn; eauto.
Qed.

Lemma target_set_raises (queue : list Topic) :
  Exists (fun t => ¬ hashable t) queue → target_set queue = Raise TypeError.
Proof.
  induction queue as [|t queue IH]; intros Hex; [by apply Exists_nil in Hex|].
  cbn [target_set]. destruct (hash_key_cases t) as [[k Hk]|Hk]; rewrite Hk; [|done].
  rewrite bind_Ok. apply Exists_cons in Hex as [Hbad|Hex].
  - exfalso. apply Hbad. by exists k.
  - by rewrite IH.
Qed.

Lemma add_loop_raises (topics queue : list Topic) (s : gset hkey) (n : nat) :
  Exists (fun t => ¬ hashable t) topics → add_loop topics queue s n = Raise TypeError.
Proof.
  revert queue s n. induction topics as [|t ts IH]; intros queue s n Hex;
    [by apply Exists_nil in Hex|].
  cbn [add_loop]. destruct (hash_key_cases t) as [[k Hk]|Hk]; rewrite Hk; [|done].
  rewrite bind_Ok. apply Exists_cons in Hex as [Hbad|Hex].
  - exfalso. apply Hbad. by exists k.
  - destruct (bool_decide (k ∉ s)); by apply IH.
Qed.

Lemma hashable_or_not (queue : list Topic) :
  Forall hashable queue ∨ Exists (fun t => ¬ hashable t) queue.
Proof.
  induction queue as [|t queue [IH|IH]]; [by left| |right; by right].
  destruct (hash_key_cases t) as [H|H]; [left; by constructor|].
  right. left. intros [k Hk]. congruence.
Qed.

(** X6.  When the target of a stored Topic or of an input Topic is a list or
    an object, add_topics raises TypeError, whatever else the queue and the
    input hold: nothing is written, not even the input Topics that come
    before the offending one. *)
Theorem add_topics_unhashable (now : clock) (fs : file) (queue topics : list Topic) :
  load_queue now fs = Ok queue →
  Exists (fun t => ¬ hashable t) (queue ++ topics) →
  add_topics now fs topics = Raise TypeError.
Proof.
  intros Hload Hex. unfold add_topics. rewrite Hload, bind_Ok.
  destruct (hashable_or_not queue) as [Hall|Hq].
  - apply Exists_app in Hex as [Hex|Hex].
    + by rewrite target_set_raises.
    + destruct (target_set_spec queue Hall) as (s & -> & _). rewrite bind_Ok.
      by rewrite add_loop_raises.
  - by rewrite target_set_raises.
Qed.

Lemma add_topics_unhashable_witness :
  (∃ q, load_queue sample_clock (Holds (PList [odd_target_record])) = Ok q)
  ∧ add_topics sample_clock (Holds (PList [odd_target_record])) [sample_topic "a.py"]
    = Raise TypeError.
Proof.
  destruct (load_queue sample_clock (Holds (PList [odd_target_record])))
    as [q|] eqn:Hload; [|discriminate].
  split; [by exists q|].
  apply (add_topics_unhashable sample_clock _ q [sample_topic "a.py"] Hload).
  revert Hload. vm_compute. intros [= <-].
  apply Exists_cons_hd. intros [k Hk]. discriminate.
Defined.
End QueueLaws.

(* ===================================================================== *)
(** * The tests of the repository, run on the model *)
(* ===================================================================== *)

Module Tests.
Import Py Re Topics Parser GitUtils TestData.


(** test_queue_save_load, test_queue_empty_dir *)
Example test_queue_save_load :
  load_queue now (save_queue [new_topic "Test topic" "file" "src/main.py";
                              new_topic "Another" "function" "src/app.py:run"])
  = Ok [new_topic "Test topic" "file" "src/main.py";
        new_topic "Another" "function" "src/app.py:run"]
  ∧ load_queue now Absent = Ok [].
Proof. by vm_compute. Qed.

(** test_add_topics_deduplicates *)
Example test_add_topics_deduplicates :
  ∃ fs,
    add_topics now Absent [new_topic "First" "file" "src/a.py";
                           new_topic "Second" "file" "src/b.py"] = Ok (2%nat, fs)
    ∧ add_topics now fs [new_topic "Duplicate" "file" "src/a.py"] = Ok (0%nat, fs)
    ∧ ∃ q, load_queue now fs = Ok q ∧ length q = 2%nat.
Proof. eexists. split; [|split; [|eexists]]; by vm_compute. Qed.

(** test_pop_next *)
Example test_pop_next :
  let a := new_topic "First" "file" "a.py" in
  let b := new_topic "Second" "file" "b.py" in
  ∃ fs1 fs2,
    pop_next now (save_queue [a; b]) = Ok (Some (set_status s_done a), fs1)
    ∧ load_queue now fs1 = Ok [set_status s_done a; b]
    ∧ pop_next now fs1 = Ok (Some (set_status s_done b), fs2)
    ∧ pop_next now fs2 = Ok (None, fs2).
Proof. eexists _, _. by vm_compute. Qed.

(** test_skip_topic, test_pending_count *)
Example test_skip_topic :
  let a := new_topic "First" "file" "a.py" in
  let b := new_topic "Second" "file" "b.py" in
  let c := new_topic "Third" "file" "c.py" in
  ∃ fs,
    skip_topic now (save_queue [a; b; c]) 0 = Ok (true, fs)
    ∧ load_queue now fs = Ok [set_status s_skipped a; b; c]
    ∧ pending_count now fs = Ok 2%nat
    ∧ pending_count now Absent = Ok 0%nat.
Proof. eexists. by vm_compute. Qed.

(** test_parse_topics_from_response, test_parse_topics_no_section *)
Example test_parse_topics_from_response (U : unicode) :
  map (fun t => (kind t, target t, source t))
      (parse_topics_from_response U now response (str_of "test"))
  = [ (PStr (str_of "file"), PStr (str_of "src/workflow/executor.py"), PStr (str_of "test"));
      (PStr (str_of "function"), PStr (str_of "src/router.py:route_request"),
       PStr (str_of "test"));
      (PStr (str_of "general"), PStr (str_of "error-handling-strategy"),
       PStr (str_of "test")) ]
  ∧ parse_topics_from_response U now
      (str_of "Just a plain explanation with no topics section.") [] = [].
Proof. by vm_compute. Qed.

(** The symbol extraction scenario of the design document; the blank line
    after the body of [hello] is part of what is extracted. *)
Example test_extract_symbol :
  extract_symbol (Some hello_source) (str_of "hello")
  = Some (join_lines [str_of "def hello(name):"; str_of "    return name"; []])
  ∧ extract_symbol (Some hello_source) (str_of "other")
    = Some (join_lines [str_of "def other():"; str_of "    pass"; []])
  ∧ extract_symbol (Some hello_source) (str_of "missing") = None
  ∧ extract_symbol None (str_of "hello") = None.
Proof. by vm_compute. Qed.

(** test_get_repo_structure_skips_hidden *)
Example test_get_repo_structure_skips_hidden :
  get_repo_structure (str_of "tmp") true
    [ (str_of ".git", Dir true [(str_of "objects", Dir true [])]);
      (str_of "__pycache__", Dir true []);
      (str_of "src", Dir true [(str_of "app.py", File)]) ] 4
  = join_lines [ str_of "tmp/"; LAST ++ str_of "src";
                 BLANK ++ LAST ++ str_of "app.py" ].
Proof. by vm_compute. Qed.
End Tests.
